(** * A verified model of the generic binary heap (package [heap])

    The development embeds [heap.go] shallowly: the [Heap] struct is a record
    holding the backing slice and the comparison function, every method is a
    computation in a small state-and-panic monad over that record, Go's [int]
    is [Z] with its 64-bit wrap-around written out, and the two unbounded
    [for] loops of [down] and [up] are bounded by a loop budget whose
    exhaustion is a separate, observable outcome. *)

From Stdlib Require Import ZArith String Lia Sorted.
From stdpp Require Import base tactics option list sorting gmap.

(** ** Go's [int] on a 64-bit platform *)

Module GoInt.
Definition min_int : Z := -9223372036854775808.
Definition max_int : Z := 9223372036854775807.

(** Two's-complement wrap-around of an exact result. *)
Definition wrap (z : Z) : Z :=
  ((z + 9223372036854775808) mod 18446744073709551616 - 9223372036854775808)%Z.

Definition add (a b : Z) : Z := wrap (a + b).
Definition sub (a b : Z) : Z := wrap (a - b).
Definition mul (a b : Z) : Z := wrap (a * b).
(** Go's [/] truncates toward zero. *)
Definition quo (a b : Z) : Z := wrap (Z.quot a b).

Definition in_range (z : Z) : Prop := (min_int <= z <= max_int)%Z.
End GoInt.

(** ** Outcomes and the heap monad *)

Inductive outcome (A : Type) : Type :=
| Ret (a : A)
| Panic (msg : string)
| Diverge.
Arguments Ret {A} a.
Arguments Panic {A} msg.
Arguments Diverge {A}.

(** The zero value of a Go type ([var zero T]). *)
Class Zero (T : Type) := zero : T.
#[export] Instance Z_Zero : Zero Z := 0%Z.
#[export] Instance nat_Zero : Zero nat := 0.
#[export] Instance pair_Zero {A B} `{Zero A} `{Zero B} : Zero (A * B) := (zero, zero).

Section Model.
Context {T : Type} `{ZT : Zero T}.

(** [type Heap[T any] struct { data []T; less func(a, b T) bool }] *)
Record Heap : Type := mkHeap {
  data : list T;
  less : T -> T -> bool
}.

Definition M (A : Type) : Type := Heap -> outcome A * Heap.

Definition ret {A} (a : A) : M A := fun h => (Ret a, h).
Definition bind {A B} (m : M A) (k : A -> M B) : M B :=
  fun h =>
    match m h with
    | (Ret a, h') => k a h'
    | (Panic msg, h') => (Panic msg, h')
    | (Diverge, h') => (Diverge, h')
    end.
Definition panic {A} (msg : string) : M A := fun h => (Panic msg, h).
Definition diverge {A} : M A := fun h => (Diverge, h).

Notation "'let*' x ':=' m 'in' k" := (bind m (fun x => k))
  (at level 10, x name, m at level 100, k at level 200).

(** The run-time panics of slice indexing, slicing and growth. *)
Definition rt_index : string := "runtime error: index out of range".
Definition rt_slice : string := "runtime error: slice bounds out of range".
Definition rt_grow : string := "growslice: len out of range".

(** [len(h.data)] *)
Definition len (d : list T) : Z := Z.of_nat (length d).
Definition get_len : M Z := fun h => (Ret (len (data h)), h).

(** [h.data[i]] as an expression. *)
Definition index (i : Z) : M T := fun h =>
  if (i <? 0)%Z then (Panic rt_index, h)
  else match data h !! Z.to_nat i with
       | Some v => (Ret v, h)
       | None => (Panic rt_index, h)
       end.

(** [h.data[i] = v] *)
Definition store (i : Z) (v : T) : M unit := fun h =>
  if ((i <? 0) || (len (data h) <=? i))%Z then (Panic rt_index, h)
  else (Ret tt, mkHeap (<[Z.to_nat i := v]> (data h)) (less h)).

(** [h.data = h.data[:n]] *)
Definition reslice (n : Z) : M unit := fun h =>
  if ((n <? 0) || (len (data h) <? n))%Z then (Panic rt_slice, h)
  else (Ret tt, mkHeap (take (Z.to_nat n) (data h)) (less h)).

(** [h.data = append(h.data, x)]; the run time refuses a length that no
    longer fits an [int]. *)
Definition append (x : T) : M unit := fun h =>
  if (GoInt.add (len (data h)) 1 <? 0)%Z then (Panic rt_grow, h)
  else (Ret tt, mkHeap (data h ++ [x]) (less h)).

(** [h.less(a, b)] *)
Definition call_less (a b : T) : M bool := fun h => (Ret (less h a b), h).

(** [data[i], data[j] = data[j], data[i]]: both right-hand operands are
    read before the first assignment. *)
Definition swap (i j : Z) : M unit :=
  let* vj := index j in
  let* vi := index i in
  let* _ := store i vj in
  store j vi.

(** The loop of [up]. *)
Fixpoint up_loop (budget : nat) (i : Z) : M unit :=
  match budget with
  | O => diverge
  | S budget' =>
      let parent := GoInt.quo (GoInt.sub i 1) 2 in
      let* stop :=
        if (i =? 0)%Z then ret true
        else let* di := index i in
             let* dp := index parent in
             let* lt := call_less di dp in
             ret (negb lt) in
      if stop : bool then ret tt
      else let* _ := swap i parent in up_loop budget' parent
  end.

(** [func (h *Heap[T]) up(i int)] *)
Definition up (i : Z) : M unit := fun h =>
  up_loop (S (length (data h))) i h.

(** The loop of [down]; [n] is the length read before the loop, the result
    is the final value of [i]. *)
Fixpoint down_loop (budget : nat) (n : Z) (i : Z) : M Z :=
  match budget with
  | O => diverge
  | S budget' =>
      let left := GoInt.add (GoInt.mul 2 i) 1 in
      if ((left >=? n) || (left <? 0))%Z then ret i
      else
        let right := GoInt.add left 1 in
        let* j :=
          if (right <? n)%Z
          then let* dr := index right in
               let* dl := index left in
               let* lt := call_less dr dl in
               ret (if lt : bool then right else left)
          else ret left in
        let* dj := index j in
        let* di := index i in
        let* lt := call_less dj di in
        if negb lt then ret i
        else let* _ := swap i j in down_loop budget' n j
  end.

(** [func (h *Heap[T]) down(i int) bool] *)
Definition down (i : Z) : M bool :=
  let* n := get_len in
  let* i' := fun h => down_loop (S (length (data h))) n i h in
  ret (i' >? i)%Z.

(** [func New[T any](less func(a, b T) bool) *Heap[T]] *)
Definition New (less : T -> T -> bool) : Heap := mkHeap [] less.

(** The loop [for i := n/2 - 1; i >= 0; i-- { h.down(i) }]. *)
Fixpoint heapify_loop (budget : nat) (i : Z) : M unit :=
  match budget with
  | O => diverge
  | S budget' =>
      if (i >=? 0)%Z
      then let* _ := down i in heapify_loop budget' (GoInt.sub i 1)
      else ret tt
  end.

(** [func NewFrom[T any](less func(a, b T) bool, data ...T) *Heap[T]] *)
Definition NewFrom (less : T -> T -> bool) (elems : list T) : outcome unit * Heap :=
  let n := len elems in
  heapify_loop (S (length elems)) (GoInt.sub (GoInt.quo n 2) 1) (mkHeap elems less).

(** [func (h *Heap[T]) Len() int] *)
Definition Len : M Z := get_len.

(** [func (h *Heap[T]) Push(x T)] *)
Definition Push (x : T) : M unit :=
  let* _ := append x in
  let* n := get_len in
  up (GoInt.sub n 1).

(** [func (h *Heap[T]) Pop() T] *)
Definition Pop : M T :=
  let* n0 := get_len in
  if (n0 =? 0)%Z then panic "heap: Pop called on empty heap"
  else
    let* x := index 0 in
    let n := GoInt.sub n0 1 in
    let* v := index n in
    let* _ := store 0 v in
    let* _ := store n zero in
    let* _ := reslice n in
    let* _ := down 0 in
    ret x.

(** [func (h *Heap[T]) Peek() T] *)
Definition Peek : M T :=
  let* n0 := get_len in
  if (n0 =? 0)%Z then panic "heap: Peek called on empty heap"
  else index 0.

(** [func (h *Heap[T]) Remove(i int) T] *)
Definition Remove (i : Z) : M T :=
  let* n0 := get_len in
  let n := GoInt.sub n0 1 in
  if ((i <? 0) || (i >? n))%Z then panic "heap: Remove index out of range"
  else if (i =? 0)%Z then Pop
  else
    let* x := index i in
    if negb (n =? i)%Z then
      let* v := index n in
      let* _ := store i v in
      let* _ := store n zero in
      let* _ := reslice n in
      let* moved := down i in
      let* _ := (if negb moved then up i else ret tt) in
      ret x
    else
      let* _ := store n zero in
      let* _ := reslice n in
      ret x.

(** [func (h *Heap[T]) At(i int) T] *)
Definition At (i : Z) : M T :=
  let* n := get_len in
  if ((i <? 0) || (i >=? n))%Z then panic "heap: At index out of range"
  else index i.

(** [func (h *Heap[T]) Fix(i int)] *)
Definition Fix (i : Z) : M unit :=
  let* n := get_len in
  if ((i <? 0) || (i >=? n))%Z then panic "heap: Fix index out of range"
  else
    let* moved := down i in
    if negb moved then up i else ret tt.

(** [func (h *Heap[T]) Set(i int, x T)] *)
Definition Set_ (i : Z) (x : T) : M unit :=
  let* n := get_len in
  if ((i <? 0) || (i >=? n))%Z then panic "heap: Set index out of range"
  else
    let* _ := store i x in
    Fix i.

End Model.

Arguments Heap T : clear implicits.
Arguments mkHeap {T} data less.

Notation "'let*' x ':=' m 'in' k" := (bind m (fun x => k))
  (at level 10, x name, m at level 100, k at level 200).

(** * Notions used to state and prove the properties *)

(** [p] is the parent of [c]: [c] is [2p+1] or [2p+2]. *)
Definition child (p c : nat) : Prop := c = 2 * p + 1 \/ c = 2 * p + 2.

Section Notions.
Context {T : Type} `{ZT : Zero T} (lessf : T -> T -> bool).
Implicit Types (d : list T) (l : T -> T -> bool) (h : Heap T).

(** A Go slice never holds more than [max_int] elements. *)
Definition slice_ok d : Prop := (len d <= GoInt.max_int)%Z.

(** ** The two sift loops as relations on the backing sequence *)

(** The sequence after [d[i], d[j] = d[j], d[i]], given the two values read. *)
Definition exchange d (i j : nat) (vi vj : T) : list T :=
  <[j := vi]> (<[i := vj]> d).

(** [pick d i j vj]: [down] at [i] selects child [j], which holds [vj]. *)
Inductive pick d (i j : nat) (vj : T) : Prop :=
| pick_left :
    j = 2 * i + 1 -> d !! j = Some vj ->
    (forall vr, d !! (2 * i + 2) = Some vr -> lessf vr vj = false) ->
    pick d i j vj
| pick_right vl :
    j = 2 * i + 2 -> d !! j = Some vj ->
    d !! (2 * i + 1) = Some vl -> lessf vj vl = true ->
    pick d i j vj.

(** [sift_down d i d' i']: the loop of [down] started at [i] on [d] ends at
    index [i'] with sequence [d']. *)
Inductive sift_down : list T -> nat -> list T -> nat -> Prop :=
| sd_leaf d i :
    length d <= 2 * i + 1 -> sift_down d i d i
| sd_stop d i j vi vj :
    pick d i j vj -> d !! i = Some vi -> lessf vj vi = false ->
    sift_down d i d i
| sd_swap d i j vi vj d' i' :
    pick d i j vj -> d !! i = Some vi -> lessf vj vi = true ->
    sift_down (exchange d i j vi vj) j d' i' ->
    sift_down d i d' i'.

(** [sift_up d i d']: the loop of [up] started at [i] on [d] ends with [d']. *)
Inductive sift_up : list T -> nat -> list T -> Prop :=
| su_root d : sift_up d 0 d
| su_stop d i p vi vp :
    child p i -> d !! i = Some vi -> d !! p = Some vp -> lessf vi vp = false ->
    sift_up d i d
| su_swap d i p vi vp d' :
    child p i -> d !! i = Some vi -> d !! p = Some vp -> lessf vi vp = true ->
    sift_up (exchange d i p vi vp) p d' ->
    sift_up d i d'.

(** Down, and up when down did not move: the tail of [Remove] and [Fix]. *)
Definition restore d (i : nat) d' : Prop :=
  exists d1 i', sift_down d i d1 i' /\
    ((i < i' /\ d' = d1) \/ (i' = i /\ sift_up d1 i d')).

(** The sequence after the last element was moved into slot [i] and the
    sequence was shortened by one. *)
Definition replace_by_last d (i : nat) : list T :=
  match last d with
  | Some v => take (length d - 1) (<[i := v]> d)
  | None => []
  end.

(** [heapify d k d']: sifting down the indices [k-1], [k-2], ..., [0], in
    that order, turns [d] into [d']. *)
Inductive heapify : list T -> nat -> list T -> Prop :=
| hf_done d : heapify d 0 d
| hf_step d k d1 i' d' :
    sift_down d k d1 i' -> heapify d1 k d' -> heapify d (S k) d'.

(** ** Heap order *)

(** No child compares less than its parent. *)
Definition heap_ordered d : Prop :=
  forall i c x y, child i c -> d !! i = Some x -> d !! c = Some y -> lessf y x = false.

(** The same, for parents at index [k] or beyond only. *)
Definition heap_from (k : nat) d : Prop :=
  forall i c x y, k <= i -> child i c -> d !! i = Some x -> d !! c = Some y -> lessf y x = false.

(** The element at the root, when present, has no element below it. *)
Definition root_minimal d : Prop :=
  forall r y, d !! 0 = Some r -> y ∈ d -> lessf y r = false.

(** Executable check of the heap order. *)
Definition heap_ordered_b d : bool :=
  forallb (fun i =>
    match d !! i with
    | Some x =>
        match d !! (2 * i + 1) with Some y => negb (lessf y x) | None => true end &&
        match d !! (2 * i + 2) with Some y => negb (lessf y x) | None => true end
    | None => true
    end) (seq 0 (length d)).

(** Order axioms, relative to the elements [P] that are ever stored. *)
Record strict_order_on (P : T -> Prop) : Prop := {
  so_irrefl : forall a, P a -> lessf a a = false;
  so_trans : forall a b c, P a -> P b -> P c ->
    lessf a b = true -> lessf b c = true -> lessf a c = true
}.

Record strict_weak_on (P : T -> Prop) : Prop := {
  swo_asym : forall a b, P a -> P b -> lessf a b = true -> lessf b a = false;
  swo_ntrans : forall a b c, P a -> P b -> P c ->
    lessf a b = false -> lessf b c = false -> lessf a c = false
}.

(** [d] is heap ordered from [k] on, except that [d !! i] may be above its
    children; those are not below the parent of [i]. *)
Definition down_damaged (k : nat) d (i : nat) : Prop :=
  (forall p c x y, k <= p -> p <> i -> child p c ->
     d !! p = Some x -> d !! c = Some y -> lessf y x = false) /\
  (forall g c x y, k <= g -> child g i -> child i c ->
     d !! g = Some x -> d !! c = Some y -> lessf y x = false).

(** [d] is heap ordered, except that [d !! i] may be below its parent;
    the children of [i] are not below the parent of [i]. *)
Definition up_damaged d (i : nat) : Prop :=
  (forall p c x y, c <> i -> child p c ->
     d !! p = Some x -> d !! c = Some y -> lessf y x = false) /\
  (forall g c x y, child g i -> child i c ->
     d !! g = Some x -> d !! c = Some y -> lessf y x = false).

(** [d] is heap ordered except for the comparisons that involve [d !! i];
    this is the state after the element at [i] was replaced. *)
Definition fix_damaged d (i : nat) : Prop :=
  (forall p c x y, p <> i -> c <> i -> child p c ->
     d !! p = Some x -> d !! c = Some y -> lessf y x = false) /\
  (forall g c x y, child g i -> child i c ->
     d !! g = Some x -> d !! c = Some y -> lessf y x = false).

(** ** The client loops of the tests *)

(** [for _, x := range xs { h.Push(x) }] *)
Fixpoint push_all (xs : list T) : M unit :=
  match xs with
  | [] => ret tt
  | x :: xs' => let* _ := Push x in push_all xs'
  end.

(** [for h.Len() > 0 { out = append(out, h.Pop()) }] *)
Fixpoint pop_loop (budget : nat) : M (list T) :=
  match budget with
  | O => diverge
  | S budget' =>
      let* n := Len in
      if (n >? 0)%Z
      then let* x := Pop in
           let* rest := pop_loop budget' in
           ret (x :: rest)
      else ret []
  end.

Definition pop_all : M (list T) := fun h => pop_loop (S (length (data h))) h.

(** Popped earlier means not above: the order in which [Pop] delivers. *)
Definition pop_le (a b : T) : Prop := lessf b a = false.

(** ** Outcomes, well-formed heaps and reachable heaps *)

(** A call either returns normally, with the less function untouched, or
    panics with the given message and leaves the heap as it was. *)
Definition returns {A} (r : outcome A * Heap T) l : Prop :=
  exists a d', r = (Ret a, mkHeap d' l).

Definition raises {A} (r : outcome A * Heap T) (msg : string) h : Prop :=
  r = (Panic msg, h).

(** The heap uses [lessf], its slice is a Go slice, it stores elements of
    [P] only, and it is heap ordered. *)
Definition valid (P : T -> Prop) h : Prop :=
  less h = lessf /\ slice_ok (data h) /\ Forall P (data h) /\ heap_ordered (data h).

(** The heaps a client reaches from [New] or [NewFrom] by calls that
    return; every element handed over is in [P]. *)
Inductive reachable (P : T -> Prop) : Heap T -> Prop :=
| reach_New : reachable P (New lessf)
| reach_NewFrom elems h :
    slice_ok elems -> Forall P elems -> NewFrom lessf elems = (Ret tt, h) ->
    reachable P h
| reach_Push h x h' :
    reachable P h -> P x -> Push x h = (Ret tt, h') -> reachable P h'
| reach_Pop h x h' :
    reachable P h -> Pop h = (Ret x, h') -> reachable P h'
| reach_Remove h i x h' :
    reachable P h -> Remove i h = (Ret x, h') -> reachable P h'
| reach_Set h i x h' :
    reachable P h -> P x -> Set_ i x h = (Ret tt, h') -> reachable P h'
| reach_Fix h i h' :
    reachable P h -> Fix i h = (Ret tt, h') -> reachable P h'.

End Notions.

(** [fails_iff r cond msg h]: the call with result [r], made on heap [h],
    panics exactly when [cond] holds, then with message [msg], and a panic
    leaves the heap as it was. *)
Definition fails_iff {T A} (r : outcome A * Heap T) (cond : Prop) (msg : string)
    (h : Heap T) : Prop :=
  (forall m, fst r = Panic m <-> cond /\ m = msg) /\
  (forall m, fst r = Panic m -> snd r = h).

(** ** Comparison functions used in the examples *)

(** A strict partial order on [Z] that is not a weak order: [1] is below
    [3], and no other pair is comparable. *)
Definition po_less (a b : Z) : bool := ((a =? 1) && (b =? 3))%Z.

Definition every (_ : Z) : Prop := True.

(** Elements with a priority and a key, compared by priority only, as the
    tests do with [testElem]. *)
Definition prio_less (a b : Z * Z) : bool := (fst a <? fst b)%Z.

(** ** The helper and the loops of the package's tests *)

(** The arguments of one [t.Errorf] call of [verifyIntHeap]: the index, the
    value there, the child index printed and the child's value. *)
Definition report : Type := (Z * Z * Z * Z)%type.

(** [func verifyIntHeap(t *testing.T, h *heap.Heap[int], i int, less func(a, b int) bool)];
    [log] holds the errors reported to [t] so far. The second report prints
    [j1] beside the value at [j2], as the test does. *)
Fixpoint verifyIntHeap_rec (budget : nat) (i : Z) (lessf : Z -> Z -> bool)
    (log : list report) : @M Z (list report) :=
  match budget with
  | O => diverge
  | S budget' =>
      let* n := Len in
      let j1 := GoInt.add (GoInt.mul 2 i) 1 in
      let j2 := GoInt.add (GoInt.mul 2 i) 2 in
      let* r :=
        if (j1 <? n)%Z then
          let* a := At j1 in
          let* b := At i in
          if lessf a b then
            let* vi := At i in
            let* vj := At j1 in
            ret (inl (log ++ [(i, vi, j1, vj)]))
          else
            let* log1 := verifyIntHeap_rec budget' j1 lessf log in
            ret (inr log1)
        else ret (inr log) in
      match r with
      | inl reported => ret reported
      | inr log1 =>
          if (j2 <? n)%Z then
            let* a := At j2 in
            let* b := At i in
            if lessf a b then
              let* vi := At i in
              let* vj := At j2 in
              ret (log1 ++ [(i, vi, j1, vj)])
            else verifyIntHeap_rec budget' j2 lessf log1
          else ret log1
      end
  end.

Definition verifyIntHeap (i : Z) (lessf : Z -> Z -> bool) (log : list report) :
    @M Z (list report) :=
  fun h => verifyIntHeap_rec (S (length (data h))) i lessf log h.

(** The loop of [TestRemove2]:
    [for h.Len() > 0 { m[h.Remove((h.Len()-1)/2)] = true; verifyIntHeap(t, h, 0, less) }] *)
Fixpoint remove_mid_loop (budget : nat) (lessf : Z -> Z -> bool)
    (m : gmap Z bool) (log : list report) : @M Z (gmap Z bool * list report) :=
  match budget with
  | O => diverge
  | S budget' =>
      let* n := Len in
      if (n >? 0)%Z then
        let* n' := Len in
        let* x := Remove (GoInt.quo (GoInt.sub n' 1) 2) in
        let m' := <[x := true]> m in
        let* log' := verifyIntHeap 0 lessf log in
        remove_mid_loop budget' lessf m' log'
      else ret (m, log)
  end.

Definition remove_mid_all (lessf : Z -> Z -> bool) (m : gmap Z bool)
    (log : list report) : @M Z (gmap Z bool * list report) :=
  fun h => remove_mid_loop (S (length (data h))) lessf m log h.

(** The loop of [TestPop], with [prio] for the field [priority]:
    [for q.Len() > 0 { peeks = append(peeks, q.Peek().priority); pops = append(pops, q.Pop().priority) }] *)
Fixpoint peek_pop_loop {T} `{Zero T} (prio : T -> Z) (budget : nat)
    (peeks pops : list Z) : @M T (list Z * list Z) :=
  match budget with
  | O => diverge
  | S budget' =>
      let* n := Len in
      if (n >? 0)%Z then
        let* e := Peek in
        let peeks' := peeks ++ [prio e] in
        let* e' := Pop in
        let pops' := pops ++ [prio e'] in
        peek_pop_loop prio budget' peeks' pops'
      else ret (peeks, pops)
  end.

Definition peek_pop_all {T} `{Zero T} (prio : T -> Z) : @M T (list Z * list Z) :=
  fun h => peek_pop_loop prio (S (length (data h))) [] [] h.

(** [below i p]: index [p] lies in the subtree rooted at [i]. *)
Inductive below (i : nat) : nat -> Prop :=
| below_root : below i i
| below_child p c : below i p -> child p c -> below i c.

(** The heap order of the subtree rooted at [i]. *)
Definition subtree_ordered {T} (lessf : T -> T -> bool) (i : nat) (d : list T) : Prop :=
  forall p c x y, below i p -> child p c ->
    d !! p = Some x -> d !! c = Some y -> lessf y x = false.

(** * Lemmas on the model *)

(** ** Arithmetic of [int] on indices *)

Ltac wrap_lia :=
  unfold GoInt.quo, GoInt.add, GoInt.sub, GoInt.mul, GoInt.wrap,
    GoInt.in_range, GoInt.min_int, GoInt.max_int in *;
  Z.to_euclidean_division_equations; lia.

Lemma wrap_in_range (z : Z) : GoInt.in_range z -> GoInt.wrap z = z.
Proof. intros; wrap_lia. Qed.

Lemma wrap_range (z : Z) : GoInt.in_range (GoInt.wrap z).
Proof. wrap_lia. Qed.

(** The left child index as [down] computes it: exact when it fits, negative
    after overflow. *)
Lemma left_child_int (i : Z) :
  (0 <= i <= GoInt.max_int)%Z ->
  let left := GoInt.add (GoInt.mul 2 i) 1 in
  (2 * i + 1 <= GoInt.max_int /\ left = 2 * i + 1)%Z \/
  (GoInt.max_int < 2 * i + 1 /\ left < 0)%Z.
Proof. intros Hi left; subst left; wrap_lia. Qed.

Lemma succ_int (z : Z) : (0 <= z < GoInt.max_int)%Z -> GoInt.add z 1 = (z + 1)%Z.
Proof. intros; wrap_lia. Qed.

Lemma pred_int (z : Z) : (0 <= z <= GoInt.max_int)%Z -> GoInt.sub z 1 = (z - 1)%Z.
Proof. intros; wrap_lia. Qed.

Lemma parent_int (p c : nat) :
  child p c -> (Z.of_nat c <= GoInt.max_int)%Z ->
  GoInt.quo (GoInt.sub (Z.of_nat c) 1) 2 = Z.of_nat p.
Proof. intros [-> | ->] Hc; wrap_lia. Qed.

Lemma has_parent (c : nat) : 0 < c -> exists p, child p c.
Proof.
  intros Hc. destruct (Nat.Even_or_Odd c) as [[k ->] | [k ->]].
  - exists (k - 1). right. lia.
  - exists k. left. lia.
Qed.

Lemma half_int (n : nat) :
  (Z.of_nat n <= GoInt.max_int)%Z ->
  exists k : nat, GoInt.sub (GoInt.quo (Z.of_nat n) 2) 1 = (Z.of_nat k - 1)%Z /\
                  (n = 2 * k \/ n = 2 * k + 1).
Proof.
  intros Hn. destruct (Nat.Even_or_Odd n) as [[k ->] | [k ->]];
    exists k; (split; [wrap_lia | lia]).
Qed.

(** ** Length, contents and direction of the sift relations *)

Section Sift.
Context {T : Type} (lessf : T -> T -> bool).
Implicit Types d : list T.

Lemma exchange_length d i j vi vj : length (exchange d i j vi vj) = length d.
Proof. unfold exchange. by rewrite !length_insert. Qed.

Lemma exchange_lookup d i j vi vj k :
  i <> j -> d !! i = Some vi -> d !! j = Some vj ->
  exchange d i j vi vj !! k =
    if decide (k = j) then Some vi
    else if decide (k = i) then Some vj
    else d !! k.
Proof.
  intros Hij Hi Hj. unfold exchange.
  apply lookup_lt_Some in Hi, Hj.
  destruct (decide (k = j)) as [-> | Hkj].
  - rewrite list_lookup_insert_eq; [done | by rewrite length_insert].
  - rewrite list_lookup_insert_ne by done.
    destruct (decide (k = i)) as [-> | Hki].
    + by rewrite list_lookup_insert_eq.
    + by rewrite list_lookup_insert_ne.
Qed.

Lemma insert_swap_head d j x y :
  d !! j = Some y -> y :: <[j := x]> d ≡ₚ x :: d.
Proof.
  revert j. induction d as [| a d IH]; intros [| j] Hj; simplify_eq /=.
  - apply perm_swap.
  - rewrite (perm_swap a y), (IH j Hj). apply perm_swap.
Qed.

Lemma exchange_perm d i j vi vj :
  d !! i = Some vi -> d !! j = Some vj -> exchange d i j vi vj ≡ₚ d.
Proof.
  unfold exchange. revert i j.
  induction d as [| a d IH]; intros [| i] [| j] Hi Hj; simplify_eq /=;
    try done; try by apply insert_swap_head.
  f_equiv. by apply IH.
Qed.

Lemma pick_child d i j vj : pick lessf d i j vj -> child i j /\ d !! j = Some vj.
Proof. intros [-> ? ? | ? -> ? ? ?]; unfold child; auto. Qed.

Lemma sift_down_length d i d' i' : sift_down lessf d i d' i' -> length d' = length d.
Proof.
  induction 1 as [| | d i j vi vj d' i' _ _ _ _ IH]; try done.
  by rewrite IH, exchange_length.
Qed.

Lemma sift_down_perm d i d' i' : sift_down lessf d i d' i' -> d' ≡ₚ d.
Proof.
  induction 1 as [| | d i j vi vj d' i' Hp Hi _ _ IH]; try done.
  rewrite IH. apply exchange_perm; [done | by apply pick_child in Hp as [_ ?]].
Qed.

(** [down] only moves toward the end of the sequence, and it reports a move
    exactly when the sequence was touched. *)
Lemma sift_down_index d i d' i' : sift_down lessf d i d' i' -> i <= i' < max (S i) (length d).
Proof.
  induction 1 as [| | d i j vi vj d' i' Hp Hi _ _ IH]; try lia.
  apply pick_child in Hp as [Hc Hj]. apply lookup_lt_Some in Hj.
  rewrite exchange_length in IH. unfold child in Hc. lia.
Qed.

Lemma sift_up_length d i d' : sift_up lessf d i d' -> length d' = length d.
Proof.
  induction 1 as [| | d i p vi vp d' _ _ _ _ _ IH]; try done.
  by rewrite IH, exchange_length.
Qed.

Lemma sift_up_perm d i d' : sift_up lessf d i d' -> d' ≡ₚ d.
Proof.
  induction 1 as [| | d i p vi vp d' _ Hi Hp _ _ IH]; try done.
  rewrite IH. by apply exchange_perm.
Qed.

End Sift.

(** ** Running the loops *)

Section Run.
Context {T : Type} `{ZT : Zero T}.
Implicit Types (d : list T) (l : T -> T -> bool).

Lemma index_nat d l (i : nat) v :
  d !! i = Some v -> index (Z.of_nat i) (mkHeap d l) = (Ret v, mkHeap d l).
Proof.
  intros Hi. unfold index; simpl.
  destruct (Z.ltb_spec (Z.of_nat i) 0); [lia |].
  by rewrite Nat2Z.id, Hi.
Qed.

Lemma store_nat d l (i : nat) v :
  i < length d ->
  store (Z.of_nat i) v (mkHeap d l) = (Ret tt, mkHeap (<[i := v]> d) l).
Proof.
  intros Hi. unfold store, len; simpl.
  destruct (Z.ltb_spec (Z.of_nat i) 0); [lia |].
  destruct (Z.leb_spec (Z.of_nat (length d)) (Z.of_nat i)); [lia |].
  by rewrite Nat2Z.id.
Qed.

Lemma swap_nat d l (i j : nat) vi vj :
  d !! i = Some vi -> d !! j = Some vj ->
  swap (Z.of_nat i) (Z.of_nat j) (mkHeap d l) = (Ret tt, mkHeap (exchange d i j vi vj) l).
Proof.
  intros Hi Hj. unfold swap, bind.
  rewrite (index_nat _ _ _ _ Hj), (index_nat _ _ _ _ Hi).
  rewrite store_nat by (by eapply lookup_lt_Some).
  rewrite store_nat; [done |].
  rewrite length_insert. by eapply lookup_lt_Some.
Qed.

Lemma down_loop_run budget d l (i : nat) :
  slice_ok d -> (Z.of_nat i <= GoInt.max_int)%Z -> length d - i < budget ->
  exists d' i',
    down_loop budget (len d) (Z.of_nat i) (mkHeap d l) = (Ret (Z.of_nat i'), mkHeap d' l) /\
    sift_down l d i d' i'.
Proof.
  revert d i. induction budget as [| budget IH]; intros d i Hd Hi Hb; [lia |].
  cbn [down_loop].
  destruct (left_child_int (Z.of_nat i)) as [[Hfit ->] | [Hbig Hneg]]; [lia | |].
  2:{ exists d, i. split; [| apply sd_leaf; unfold slice_ok, len in Hd; lia].
      destruct (Z.ltb_spec (GoInt.add (GoInt.mul 2 (Z.of_nat i)) 1) 0); [| lia].
      by rewrite orb_true_r. }
  replace (2 * Z.of_nat i + 1)%Z with (Z.of_nat (2 * i + 1)) by lia.
  unfold slice_ok, len in *.
  destruct (Z.geb_spec (Z.of_nat (2 * i + 1)) (Z.of_nat (length d))) as [Hleaf | Hin].
  { exists d, i. split; [done | apply sd_leaf; lia]. }
  destruct (Z.ltb_spec (Z.of_nat (2 * i + 1)) 0); [lia |]. cbn [orb].
  rewrite succ_int by lia.
  replace (Z.of_nat (2 * i + 1) + 1)%Z with (Z.of_nat (2 * i + 2)) by lia.
  destruct (lookup_lt_is_Some_2 d (2 * i + 1)) as [vl Hl]; [lia |].
  destruct (lookup_lt_is_Some_2 d i) as [vi Hvi]; [lia |].
  assert (exists j vj, pick l d i j vj /\
    (if (Z.of_nat (2 * i + 2) <? Z.of_nat (length d))%Z
          then let* dr := index (Z.of_nat (2 * i + 2)) in
               let* dl := index (Z.of_nat (2 * i + 1)) in
               let* lt := call_less dr dl in
               ret (if lt : bool then Z.of_nat (2 * i + 2) else Z.of_nat (2 * i + 1))
          else ret (Z.of_nat (2 * i + 1))) (mkHeap d l) = (Ret (Z.of_nat j), mkHeap d l)) as (j & vj & Hpick & Hrun).
  { destruct (Z.ltb_spec (Z.of_nat (2 * i + 2)) (Z.of_nat (length d))) as [Hr | Hr].
    - destruct (lookup_lt_is_Some_2 d (2 * i + 2)) as [vr Hvr]; [lia |].
      unfold bind. rewrite (index_nat _ _ _ _ Hvr), (index_nat _ _ _ _ Hl).
      unfold call_less, ret; simpl.
      destruct (l vr vl) eqn:Hlt.
      + exists (2 * i + 2), vr. split; [by eapply pick_right | done].
      + exists (2 * i + 1), vl. split; [| done].
        apply pick_left; [done | done |]. intros vr' Hvr'. by simplify_eq.
    - exists (2 * i + 1), vl. split; [| done].
      apply pick_left; [done | done |]. intros vr Hvr.
      apply lookup_lt_Some in Hvr. lia. }
  unfold bind at 1. rewrite Hrun.
  destruct (pick_child _ _ _ _ _ Hpick) as [Hc Hj].
  unfold bind at 1. rewrite (index_nat _ _ _ _ Hj).
  unfold bind at 1. rewrite (index_nat _ _ _ _ Hvi).
  unfold bind at 1, call_less at 1. cbn [less].
  destruct (l vj vi) eqn:Hlt; cbn [negb].
  - unfold bind at 1. rewrite (swap_nat _ _ _ _ _ _ Hvi Hj).
    destruct (IH (exchange d i j vi vj) j) as (d' & i' & Hrun' & Hrel).
    + by rewrite exchange_length.
    + apply lookup_lt_Some in Hj. lia.
    + rewrite exchange_length. unfold child in Hc. apply lookup_lt_Some in Hj. lia.
    + rewrite exchange_length in Hrun'. exists d', i'. split; [done |].
      by eapply sd_swap.
  - exists d, i. split; [done |]. by eapply sd_stop.
Qed.

Lemma up_loop_run budget d l (i : nat) :
  slice_ok d -> i < length d -> i < budget ->
  exists d',
    up_loop budget (Z.of_nat i) (mkHeap d l) = (Ret tt, mkHeap d' l) /\
    sift_up l d i d'.
Proof.
  revert d i. induction budget as [| budget IH]; intros d i Hd Hi Hb; [lia |].
  cbn [up_loop]. unfold slice_ok, len in *.
  destruct (Z.eqb_spec (Z.of_nat i) 0) as [H0 | H0].
  { exists d. replace i with 0 by lia. split; [done | constructor]. }
  destruct (has_parent i) as [p Hp]; [lia |].
  rewrite (parent_int p i) by (done || lia).
  destruct (lookup_lt_is_Some_2 d i) as [vi Hvi]; [done |].
  destruct (lookup_lt_is_Some_2 d p) as [vp Hvp]; [unfold child in Hp; lia |].
  unfold bind at 1. unfold bind at 1. rewrite (index_nat _ _ _ _ Hvi).
  unfold bind at 1. rewrite (index_nat _ _ _ _ Hvp).
  unfold bind at 1, call_less at 1, ret at 1. cbn [less].
  destruct (l vi vp) eqn:Hlt; cbn [negb].
  - unfold bind at 1. rewrite (swap_nat _ _ _ _ _ _ Hvi Hvp).
    destruct (IH (exchange d i p vi vp) p) as (d' & Hrun' & Hrel).
    + by rewrite exchange_length.
    + rewrite exchange_length. unfold child in Hp. lia.
    + unfold child in Hp. lia.
    + exists d'. split; [done |]. by eapply su_swap.
  - exists d. split; [done |]. by eapply su_stop.
Qed.

Lemma down_run d l (i : nat) :
  slice_ok d -> (Z.of_nat i <= GoInt.max_int)%Z ->
  exists d' i',
    down (Z.of_nat i) (mkHeap d l) = (Ret (Z.of_nat i' >? Z.of_nat i)%Z, mkHeap d' l) /\
    sift_down l d i d' i'.
Proof.
  intros Hd Hi. unfold down, bind, get_len; cbn [data].
  destruct (down_loop_run (S (length d)) d l i) as (d' & i' & Hrun & Hrel);
    [done | done | lia |].
  rewrite Hrun. by exists d', i'.
Qed.

Lemma up_run d l (i : nat) :
  slice_ok d -> i < length d ->
  exists d', up (Z.of_nat i) (mkHeap d l) = (Ret tt, mkHeap d' l) /\ sift_up l d i d'.
Proof.
  intros Hd Hi. unfold up; cbn [data].
  apply up_loop_run; [done | done | lia].
Qed.

End Run.

(** ** How the sift loops restore the heap order *)

Section Order.
Context {T : Type} (lessf : T -> T -> bool).
Implicit Types d : list T.

Lemma heap_from_0 d : heap_from lessf 0 d <-> heap_ordered lessf d.
Proof.
  unfold heap_from, heap_ordered. split; intros H i c x y; [| intros _]; apply H. lia.
Qed.

Lemma heap_ordered_b_sound d : heap_ordered_b lessf d = true -> heap_ordered lessf d.
Proof.
  unfold heap_ordered_b. rewrite forallb_forall.
  intros H i c x y Hc Hi Hy.
  specialize (H i). rewrite Hi in H.
  assert (In i (seq 0 (length d))) as Hin.
  { apply in_seq. apply lookup_lt_Some in Hi. lia. }
  apply H in Hin. apply andb_true_iff in Hin as [H1 H2].
  destruct Hc as [-> | ->].
  - rewrite Hy in H1. by apply negb_true_iff.
  - rewrite Hy in H2. by apply negb_true_iff.
Qed.

Lemma strict_weak_strict P : strict_weak_on lessf P -> strict_order_on lessf P.
Proof.
  intros [Ha Hn]. split.
  - intros a Pa. destruct (lessf a a) eqn:E; [| done]. by rewrite (Ha a a) in E.
  - intros a b c Pa Pb Pc Hab Hbc.
    destruct (lessf a c) eqn:E; [done |].
    rewrite (Hn a c b) in Hab; auto.
Qed.

Section WithOrder.
Context (P : T -> Prop) (Hswo : strict_weak_on lessf P).

Local Ltac stored HP :=
  repeat match goal with
  | H : ?d !! _ = Some ?v |- _ =>
      lazymatch goal with
      | _ : P v |- _ => fail
      | _ => assert (P v) by (eapply Forall_lookup_1; [exact HP | exact H])
      end
  end.

Lemma less_asym a b : P a -> P b -> lessf a b = true -> lessf b a = false.
Proof. apply Hswo. Qed.

Lemma less_ntrans a b c :
  P a -> P b -> P c -> lessf a b = false -> lessf b c = false -> lessf a c = false.
Proof. apply Hswo. Qed.

Lemma less_irrefl a : P a -> lessf a a = false.
Proof. apply (strict_weak_strict P Hswo). Qed.

Lemma less_trans a b c :
  P a -> P b -> P c -> lessf a b = true -> lessf b c = true -> lessf a c = true.
Proof. apply (strict_weak_strict P Hswo). Qed.

Lemma exchange_stored d i j vi vj :
  Forall P d -> P vi -> P vj -> Forall P (exchange d i j vi vj).
Proof. intros. unfold exchange. apply Forall_insert; [apply Forall_insert |]; done. Qed.

(** The child that [down] picks is not above its sibling. *)
Lemma pick_least d i j vj c y :
  Forall P d -> pick lessf d i j vj -> child i c -> d !! c = Some y -> lessf y vj = false.
Proof.
  intros HP Hp Hc Hy. destruct Hp as [-> Hj Hr | vl -> Hj Hl Hlt]; stored HP.
  - destruct Hc as [-> | ->]; [| by apply Hr].
    simplify_eq. by apply less_irrefl.
  - destruct Hc as [-> | ->]; simplify_eq.
    + by apply less_asym.
    + by apply less_irrefl.
Qed.

Lemma sift_down_restores k d i d' i' :
  Forall P d -> down_damaged lessf k d i -> sift_down lessf d i d' i' -> heap_from lessf k d'.
Proof.
  intros HP Hdam Hs. revert HP Hdam.
  induction Hs as [d i Hleaf | d i j vi vj Hp Hi Hlt | d i j vi vj d' i' Hp Hi Hlt Hs IH];
    intros HP [Hd1 Hd2].
  - intros p c x y Hk Hc Hx Hy.
    destruct (decide (p = i)) as [-> | Hne]; [| by eapply Hd1].
    apply lookup_lt_Some in Hy. unfold child in Hc. lia.
  - intros p c x y Hk Hc Hx Hy.
    destruct (decide (p = i)) as [-> | Hne]; [| by eapply Hd1].
    simplify_eq. pose proof (pick_least _ _ _ _ _ _ HP Hp Hc Hy) as Hleast.
    destruct (pick_child _ _ _ _ _ Hp) as [_ Hj]. stored HP.
    by apply (less_ntrans y vj).
  - destruct (pick_child _ _ _ _ _ Hp) as [Hcj Hj]. stored HP.
    assert (i <> j) as Hij by (unfold child in Hcj; lia).
    apply IH; [by apply exchange_stored |]. split.
    + intros p c x y Hk Hne Hc. rewrite !exchange_lookup by done.
      repeat case_decide; intros; simplify_eq; try (unfold child in *; lia).
      * by apply less_asym.
      * by eapply pick_least.
      * by eapply (Hd2 p j).
      * by eapply Hd1.
    + intros g c x y Hk Hg Hc. rewrite !exchange_lookup by done.
      repeat case_decide; intros; simplify_eq; try (unfold child in *; lia).
      eapply (Hd1 j c); try done. unfold child in *; lia.
Qed.

Lemma sift_up_restores d i d' :
  Forall P d -> up_damaged lessf d i -> sift_up lessf d i d' -> heap_ordered lessf d'.
Proof.
  intros HP Hdam Hs. revert HP Hdam.
  induction Hs as [d | d i p vi vp Hc Hi Hp Hlt | d i p vi vp d' Hc Hi Hp Hlt Hs IH];
    intros HP [Hu1 Hu2].
  - intros p c x y Hc Hx Hy. eapply Hu1; [| done..].
    unfold child in Hc; lia.
  - intros q c x y Hqc Hx Hy.
    destruct (decide (c = i)) as [-> | Hne]; [| by eapply Hu1].
    assert (q = p) as -> by (unfold child in *; lia). by simplify_eq.
  - stored HP.
    assert (i <> p) as Hip by (unfold child in Hc; lia).
    apply IH; [by apply exchange_stored |]. split.
    + intros q c x y Hne Hqc. rewrite !exchange_lookup by done.
      repeat case_decide; intros; simplify_eq; try (unfold child in *; lia).
      * by apply less_asym.
      * assert (lessf y vp = false) as Hy by (by eapply (Hu1 p c)).
        stored HP. destruct (lessf y x) eqn:E; [| done].
        rewrite (less_trans y x vp) in Hy; done.
      * by eapply (Hu2 p c).
      * by eapply Hu1.
    + intros g c x y Hg Hgc. rewrite !exchange_lookup by done.
      repeat case_decide; intros; simplify_eq; try (unfold child in *; lia).
      * by eapply (Hu1 g p).
      * assert (lessf y vp = false) as Hy by (by eapply (Hu1 p c)).
        assert (lessf vp x = false) as Hx by (by eapply (Hu1 g p)).
        stored HP. by apply (less_ntrans y vp).
Qed.

(** What [down] leaves for the caller that then decides on [up]. *)
Lemma sift_down_fix d i d' i' :
  Forall P d -> fix_damaged lessf d i -> sift_down lessf d i d' i' ->
  (i < i' /\ heap_ordered lessf d') \/ (i' = i /\ d' = d /\ up_damaged lessf d i).
Proof.
  intros HP [Hf1 Hf2] Hs.
  inversion Hs as [d0 i0 Hleaf | d0 i0 j vi vj Hp Hi Hlt | d0 i0 j vi vj d0' i0' Hp Hi Hlt Hs'];
    subst.
  - right. do 2 (split; [done |]). split; [| done].
    intros p c x y Hne Hc Hx Hy.
    destruct (decide (p = i')) as [-> | Hpi]; [| by eapply (Hf1 p c)].
    apply lookup_lt_Some in Hy. unfold child in Hc. lia.
  - right. do 2 (split; [done |]). split; [| done].
    intros p c x y Hne Hc Hx Hy.
    destruct (decide (p = i')) as [-> | Hpi]; [| by eapply (Hf1 p c)].
    simplify_eq. pose proof (pick_least _ _ _ _ _ _ HP Hp Hc Hy) as Hleast.
    destruct (pick_child _ _ _ _ _ Hp) as [_ Hj]. stored HP.
    by apply (less_ntrans y vj).
  - left. destruct (pick_child _ _ _ _ _ Hp) as [Hcj Hj].
    split.
    { apply sift_down_index in Hs'. unfold child in Hcj. lia. }
    apply heap_from_0. eapply sift_down_restores; [done | | done].
    split; [| intros g c x y _; by apply Hf2].
    intros p c x y _ Hne Hc Hx Hy.
    destruct (decide (c = i)) as [-> | Hci]; [| by eapply (Hf1 p c)].
    simplify_eq. assert (lessf vj x = false) as Hg by (by eapply (Hf2 p j)).
    stored HP. destruct (lessf vi x) eqn:E; [| done].
    rewrite (less_trans vj vi x) in Hg; done.
Qed.

Lemma heap_ordered_fix_damaged d i : Forall P d -> heap_ordered lessf d -> fix_damaged lessf d i.
Proof.
  intros HP H. split.
  - intros p c x y _ _. apply H.
  - intros g c x y Hg Hc Hx Hy.
    destruct (lookup_lt_is_Some_2 d i) as [vi Hi].
    { apply lookup_lt_Some in Hy. unfold child in Hc. lia. }
    assert (lessf y vi = false) by (by eapply (H i c)).
    assert (lessf vi x = false) by (by eapply (H g i)).
    stored HP. by apply (less_ntrans y vi).
Qed.

(** Replacing one element of a heap-ordered sequence damages it at that
    index only. *)
Lemma insert_fix_damaged d i v :
  Forall P d -> heap_ordered lessf d -> fix_damaged lessf (<[i := v]> d) i.
Proof.
  intros HP H. destruct (heap_ordered_fix_damaged d i HP H) as [H1 H2]. split.
  - intros p c x y Hp Hc. rewrite !list_lookup_insert_ne by done. by apply H1.
  - intros g c x y Hg Hc.
    rewrite !list_lookup_insert_ne by (unfold child in *; lia). by apply H2.
Qed.

(** In a heap-ordered sequence nothing is below the root. *)
Lemma heap_ordered_root d : Forall P d -> heap_ordered lessf d -> root_minimal lessf d.
Proof.
  intros HP H r y Hr Hy.
  apply list_elem_of_lookup in Hy as [c Hc]. revert y Hc.
  induction (Wf_nat.lt_wf c) as [c _ IH]. intros y Hc.
  destruct (decide (c = 0)) as [-> | Hne].
  - simplify_eq. stored HP. by apply less_irrefl.
  - destruct (has_parent c) as [p Hp]; [lia |].
    destruct (lookup_lt_is_Some_2 d p) as [vp Hvp].
    { apply lookup_lt_Some in Hc. unfold child in Hp. lia. }
    assert (lessf vp r = false) by (apply (IH p); [unfold child in Hp; lia | done]).
    assert (lessf y vp = false) by (by eapply (H p c)).
    stored HP. by apply (less_ntrans y vp).
Qed.

End WithOrder.
End Order.

(** ** The public operations, run on a well-formed slice *)

Section Ops.
Context {T : Type} `{ZT : Zero T}.
Implicit Types (d : list T) (l : T -> T -> bool).

Lemma replace_by_last_length d i : length (replace_by_last d i) = length d - 1.
Proof.
  unfold replace_by_last. destruct (last d) eqn:E.
  - rewrite length_take, length_insert. lia.
  - apply last_None in E. by subst.
Qed.

Lemma replace_by_last_lookup_ne d i k x :
  k <> i -> replace_by_last d i !! k = Some x -> d !! k = Some x.
Proof.
  unfold replace_by_last. destruct (last d); [| done].
  intros Hne Hk. apply lookup_take_Some in Hk as [Hk _].
  by rewrite list_lookup_insert_ne in Hk.
Qed.

Lemma replace_by_last_perm d i x :
  d !! i = Some x -> x :: replace_by_last d i ≡ₚ d.
Proof.
  intros Hi. unfold replace_by_last.
  destruct (last d) as [v |] eqn:E.
  2:{ apply last_None in E. by subst. }
  apply last_Some in E as [d0 ->].
  rewrite length_app; simpl.
  replace (length d0 + 1 - 1) with (length d0) by lia.
  destruct (decide (i < length d0)) as [Hlt | Hge].
  - rewrite insert_app_l by done.
    rewrite take_app_length' by (by rewrite length_insert).
    rewrite lookup_app_l in Hi by done.
    rewrite (insert_swap_head d0 i v x Hi).
    by rewrite Permutation_cons_append.
  - rewrite take_insert_ge by lia. rewrite take_app_length.
    apply lookup_lt_Some in Hi as Hlen. rewrite length_app in Hlen; simpl in Hlen.
    rewrite lookup_app_r in Hi by lia.
    replace (i - length d0) with 0 in Hi by lia. simplify_eq /=.
    by rewrite Permutation_cons_append.
Qed.

(** The three statements that move the last element to slot [i]. *)
Lemma move_last_run {A} (k : M A) d l (n i : nat) v :
  length d = S n -> i <= n -> d !! n = Some v ->
  (let* _ := store (Z.of_nat i) v in
   let* _ := store (Z.of_nat n) zero in
   let* _ := reslice (Z.of_nat n) in
   k) (mkHeap d l)
  = k (mkHeap (replace_by_last d i) l).
Proof.
  intros Hlen Hi Hn. unfold bind.
  rewrite store_nat by lia. rewrite store_nat by (rewrite length_insert; lia).
  unfold reslice, len; cbn [data less]. rewrite !length_insert.
  destruct (Z.ltb_spec (Z.of_nat n) 0); [lia |].
  destruct (Z.ltb_spec (Z.of_nat (length d)) (Z.of_nat n)); [lia |]. cbn [orb].
  rewrite Nat2Z.id, take_insert_ge by lia.
  unfold replace_by_last. rewrite last_lookup, Hlen; simpl. rewrite Hn.
  by replace (n - 0) with n by lia.
Qed.

Lemma restore_run d l (i : nat) :
  slice_ok d -> i < length d ->
  exists d',
    (let* moved := down (Z.of_nat i) in
     if negb moved then up (Z.of_nat i) else ret tt) (mkHeap d l)
    = (Ret tt, mkHeap d' l) /\ restore l d i d'.
Proof.
  intros Hd Hi.
  destruct (down_run d l i) as (d1 & i' & Hrun & Hrel);
    [done | unfold slice_ok, len in Hd; lia |].
  unfold bind. rewrite Hrun.
  pose proof (sift_down_index _ _ _ _ _ Hrel) as Hidx.
  destruct (Z.gtb_spec (Z.of_nat i') (Z.of_nat i)) as [Hgt | Hle]; cbn [negb].
  - exists d1. split; [done |]. exists d1, i'. split; [done |]. left. split; [lia | done].
  - assert (i' = i) as -> by lia.
    destruct (up_run d1 l i) as (d' & Hup & Hrel').
    + unfold slice_ok, len in *. by rewrite (sift_down_length _ _ _ _ _ Hrel).
    + by rewrite (sift_down_length _ _ _ _ _ Hrel).
    + exists d'. split; [done |]. exists d1, i. split; [done |]. by right.
Qed.

Lemma restore_length l d i d' : restore l d i d' -> length d' = length d.
Proof.
  intros (d1 & i' & Hs & [[_ ->] | [_ Hu]]).
  - by eapply sift_down_length.
  - rewrite (sift_up_length _ _ _ _ Hu). by eapply sift_down_length.
Qed.

Lemma restore_perm l d i d' : restore l d i d' -> d' ≡ₚ d.
Proof.
  intros (d1 & i' & Hs & [[_ ->] | [_ Hu]]).
  - by eapply sift_down_perm.
  - rewrite (sift_up_perm _ _ _ _ Hu). by eapply sift_down_perm.
Qed.

Lemma restore_restores l P d i d' :
  strict_weak_on l P -> Forall P d -> fix_damaged l d i -> restore l d i d' ->
  heap_ordered l d'.
Proof.
  intros Hswo HP Hdam (d1 & i' & Hs & Hcase).
  destruct (sift_down_fix l P Hswo d i d1 i' HP Hdam Hs) as [[Hlt Hord] | (-> & -> & Hup)].
  - destruct Hcase as [[_ ->] | [-> _]]; [done | lia].
  - destruct Hcase as [[Hlt _] | [_ Hu]]; [lia |].
    by eapply sift_up_restores.
Qed.

Lemma Len_run d l : Len (mkHeap d l) = (Ret (len d), mkHeap d l).
Proof. done. Qed.

Lemma Push_run d l x :
  slice_ok d -> (len d < GoInt.max_int)%Z ->
  exists d', Push x (mkHeap d l) = (Ret tt, mkHeap d' l) /\
             sift_up l (d ++ [x]) (length d) d'.
Proof.
  intros Hd Hlt. unfold slice_ok, len in *.
  unfold Push, bind, append, get_len, len; cbn [data less].
  rewrite succ_int by lia.
  destruct (Z.ltb_spec (Z.of_nat (length d) + 1) 0); [lia |].
  cbn [data]. rewrite length_app; simpl. rewrite pred_int by lia.
  replace (Z.of_nat (length d + 1) - 1)%Z with (Z.of_nat (length d)) by lia.
  apply up_run.
  - unfold slice_ok, len. rewrite length_app; simpl. lia.
  - rewrite length_app; simpl. lia.
Qed.

Lemma Push_full d l x :
  (len d = GoInt.max_int)%Z -> Push x (mkHeap d l) = (Panic rt_grow, mkHeap d l).
Proof.
  intros Hd. unfold Push, bind, append; cbn [data]. by rewrite Hd.
Qed.

Lemma Pop_empty l :
  Pop (mkHeap [] l) = (Panic "heap: Pop called on empty heap", mkHeap [] l).
Proof. done. Qed.

Lemma Pop_run d l r :
  slice_ok d -> d !! 0 = Some r ->
  exists d' i', Pop (mkHeap d l) = (Ret r, mkHeap d' l) /\
                sift_down l (replace_by_last d 0) 0 d' i'.
Proof.
  intros Hd Hr. unfold slice_ok, len in *.
  apply lookup_lt_Some in Hr as Hlen.
  destruct (length d) as [| n] eqn:En; [lia |].
  destruct (lookup_lt_is_Some_2 d n) as [v Hv]; [lia |].
  unfold Pop. unfold bind at 1, get_len at 1, len; cbn [data]. rewrite En.
  destruct (Z.eqb_spec (Z.of_nat (S n)) 0); [lia |].
  unfold bind at 1. rewrite (index_nat _ _ 0 _ Hr).
  rewrite pred_int by lia.
  replace (Z.of_nat (S n) - 1)%Z with (Z.of_nat n) by lia.
  unfold bind at 1. rewrite (index_nat _ _ _ _ Hv).
  change 0%Z with (Z.of_nat 0).
  rewrite (move_last_run _ d l n 0 v En ltac:(lia) Hv).
  destruct (down_run (replace_by_last d 0) l 0) as (d' & i' & Hrun & Hrel).
  - unfold slice_ok, len. rewrite replace_by_last_length. lia.
  - unfold GoInt.max_int. lia.
  - unfold bind. rewrite Hrun. by exists d', i'.
Qed.

Lemma Peek_empty l :
  Peek (mkHeap [] l) = (Panic "heap: Peek called on empty heap", mkHeap [] l).
Proof. done. Qed.

Lemma Peek_run d l r :
  d !! 0 = Some r -> Peek (mkHeap d l) = (Ret r, mkHeap d l).
Proof.
  intros Hr. apply lookup_lt_Some in Hr as Hlen.
  unfold Peek, bind, get_len, len; cbn [data].
  destruct (Z.eqb_spec (Z.of_nat (length d)) 0); [lia |].
  by rewrite (index_nat _ _ 0 _ Hr).
Qed.

Lemma At_range d l (i : Z) :
  (i < 0 \/ len d <= i)%Z ->
  At i (mkHeap d l) = (Panic "heap: At index out of range", mkHeap d l).
Proof.
  intros Hi. unfold At, bind, get_len; cbn [data].
  destruct (Z.ltb_spec i 0); [done |].
  destruct (Z.geb_spec i (len d)); [done | lia].
Qed.

Lemma At_run d l (i : nat) x :
  d !! i = Some x -> At (Z.of_nat i) (mkHeap d l) = (Ret x, mkHeap d l).
Proof.
  intros Hi. apply lookup_lt_Some in Hi as Hlen.
  unfold At, bind, get_len, len; cbn [data].
  destruct (Z.ltb_spec (Z.of_nat i) 0); [lia |].
  destruct (Z.geb_spec (Z.of_nat i) (Z.of_nat (length d))); [lia |].
  by rewrite (index_nat _ _ _ _ Hi).
Qed.

Lemma Remove_range d l (i : Z) :
  slice_ok d -> (i < 0 \/ len d <= i)%Z ->
  Remove i (mkHeap d l) = (Panic "heap: Remove index out of range", mkHeap d l).
Proof.
  intros Hd Hi. unfold slice_ok, len in *.
  unfold Remove, bind, get_len, len; cbn [data].
  assert (GoInt.sub (Z.of_nat (length d)) 1 = Z.of_nat (length d) - 1)%Z as ->
    by (apply pred_int; lia).
  destruct (Z.ltb_spec i 0); [done |].
  destruct (Z.gtb_spec i (Z.of_nat (length d) - 1)); [done | lia].
Qed.

Lemma Remove_root d l :
  slice_ok d -> d <> [] -> Remove 0 (mkHeap d l) = Pop (mkHeap d l).
Proof.
  intros Hd Hne. unfold slice_ok, len in *.
  assert (0 < length d) by (destruct d; [done | simpl; lia]).
  unfold Remove. unfold bind at 1, get_len at 1, len; cbn [data].
  rewrite pred_int by lia.
  destruct (Z.gtb_spec 0 (Z.of_nat (length d) - 1)); [lia | done].
Qed.

Lemma Remove_last d l (i : nat) x :
  slice_ok d -> 0 < i -> length d = S i -> d !! i = Some x ->
  Remove (Z.of_nat i) (mkHeap d l) = (Ret x, mkHeap (take i d) l).
Proof.
  intros Hd H0 Hlen Hx. unfold slice_ok, len in *.
  unfold Remove. unfold bind at 1, get_len at 1, len; cbn [data].
  rewrite pred_int by lia. rewrite Hlen.
  replace (Z.of_nat (S i) - 1)%Z with (Z.of_nat i) by lia.
  destruct (Z.ltb_spec (Z.of_nat i) 0); [lia |].
  destruct (Z.gtb_spec (Z.of_nat i) (Z.of_nat i)); [lia |]. cbn [orb].
  destruct (Z.eqb_spec (Z.of_nat i) 0); [lia |].
  unfold bind at 1. rewrite (index_nat _ _ _ _ Hx).
  rewrite Z.eqb_refl; cbn [negb].
  unfold bind. rewrite store_nat by lia.
  unfold reslice, len; cbn [data less]. rewrite length_insert, Hlen.
  destruct (Z.ltb_spec (Z.of_nat i) 0); [lia |].
  destruct (Z.ltb_spec (Z.of_nat (S i)) (Z.of_nat i)); [lia |]. cbn [orb].
  by rewrite Nat2Z.id, take_insert_ge.
Qed.

Lemma Remove_inner d l (i : nat) x :
  slice_ok d -> 0 < i -> S i < length d -> d !! i = Some x ->
  exists d', Remove (Z.of_nat i) (mkHeap d l) = (Ret x, mkHeap d' l) /\
             restore l (replace_by_last d i) i d'.
Proof.
  intros Hd H0 Hlen Hx. unfold slice_ok, len in *.
  destruct (length d) as [| n] eqn:En; [lia |].
  destruct (lookup_lt_is_Some_2 d n) as [v Hv]; [lia |].
  unfold Remove. unfold bind at 1, get_len at 1, len; cbn [data].
  rewrite pred_int by lia. rewrite En.
  replace (Z.of_nat (S n) - 1)%Z with (Z.of_nat n) by lia.
  destruct (Z.ltb_spec (Z.of_nat i) 0); [lia |].
  destruct (Z.gtb_spec (Z.of_nat i) (Z.of_nat n)); [lia |]. cbn [orb].
  destruct (Z.eqb_spec (Z.of_nat i) 0); [lia |].
  unfold bind at 1. rewrite (index_nat _ _ _ _ Hx).
  destruct (Z.eqb_spec (Z.of_nat n) (Z.of_nat i)); [lia |]. cbn [negb].
  unfold bind at 1. rewrite (index_nat _ _ _ _ Hv).
  rewrite (move_last_run _ d l n i v En ltac:(lia) Hv).
  destruct (restore_run (replace_by_last d i) l i) as (d' & Hrun & Hrel).
  - unfold slice_ok, len. rewrite replace_by_last_length. lia.
  - rewrite replace_by_last_length. lia.
  - exists d'. split; [| done].
    unfold bind at 1. unfold bind at 1 in Hrun.
    destruct (down (Z.of_nat i) (mkHeap (replace_by_last d i) l)) as [[moved | |] h1];
      try done.
    unfold bind. by rewrite Hrun.
Qed.

Lemma Fix_range d l (i : Z) :
  (i < 0 \/ len d <= i)%Z ->
  Fix i (mkHeap d l) = (Panic "heap: Fix index out of range", mkHeap d l).
Proof.
  intros Hi. unfold Fix, bind, get_len; cbn [data].
  destruct (Z.ltb_spec i 0); [done |].
  destruct (Z.geb_spec i (len d)); [done | lia].
Qed.

Lemma Fix_run d l (i : nat) :
  slice_ok d -> i < length d ->
  exists d', Fix (Z.of_nat i) (mkHeap d l) = (Ret tt, mkHeap d' l) /\ restore l d i d'.
Proof.
  intros Hd Hi.
  unfold Fix. unfold bind at 1, get_len at 1, len; cbn [data].
  destruct (Z.ltb_spec (Z.of_nat i) 0); [lia |].
  destruct (Z.geb_spec (Z.of_nat i) (Z.of_nat (length d))); [lia |]. cbn [orb].
  by apply restore_run.
Qed.

Lemma Set_range d l (i : Z) x :
  (i < 0 \/ len d <= i)%Z ->
  Set_ i x (mkHeap d l) = (Panic "heap: Set index out of range", mkHeap d l).
Proof.
  intros Hi. unfold Set_, bind, get_len; cbn [data].
  destruct (Z.ltb_spec i 0); [done |].
  destruct (Z.geb_spec i (len d)); [done | lia].
Qed.

Lemma Set_run d l (i : nat) x :
  slice_ok d -> i < length d ->
  exists d', Set_ (Z.of_nat i) x (mkHeap d l) = (Ret tt, mkHeap d' l) /\
             restore l (<[i := x]> d) i d'.
Proof.
  intros Hd Hi.
  unfold Set_. unfold bind at 1, get_len at 1, len; cbn [data].
  destruct (Z.ltb_spec (Z.of_nat i) 0); [lia |].
  destruct (Z.geb_spec (Z.of_nat i) (Z.of_nat (length d))); [lia |]. cbn [orb].
  unfold bind at 1. rewrite store_nat by done.
  apply Fix_run; [| by rewrite length_insert].
  unfold slice_ok, len in *. by rewrite length_insert.
Qed.

End Ops.

(** ** Construction from a slice *)

Section Build.
Context {T : Type} `{ZT : Zero T}.
Implicit Types (d : list T) (l : T -> T -> bool).

Lemma heapify_loop_run budget d l (k : nat) :
  slice_ok d -> k <= length d -> k < budget ->
  exists d',
    heapify_loop budget (Z.of_nat k - 1) (mkHeap d l) = (Ret tt, mkHeap d' l) /\
    heapify l d k d'.
Proof.
  revert budget d. induction k as [| k IH]; intros [| budget] d Hd Hk Hb; try lia.
  - exists d. split; [done | constructor].
  - cbn [heapify_loop].
    replace (Z.of_nat (S k) - 1)%Z with (Z.of_nat k) by lia.
    destruct (Z.geb_spec (Z.of_nat k) 0); [| lia].
    unfold slice_ok, len in *.
    destruct (down_run d l k) as (d1 & i' & Hrun & Hrel); [done | lia |].
    unfold bind. rewrite Hrun. rewrite pred_int by lia.
    pose proof (sift_down_length _ _ _ _ _ Hrel) as Hlen.
    destruct (IH budget d1) as (d' & Hloop & Hheap); [by rewrite Hlen | lia | lia |].
    exists d'. split; [done |]. by eapply hf_step.
Qed.

Lemma NewFrom_run l (elems : list T) :
  slice_ok elems ->
  exists d' k,
    NewFrom l elems = (Ret tt, mkHeap d' l) /\
    (length elems = 2 * k \/ length elems = 2 * k + 1) /\
    heapify l elems k d'.
Proof.
  intros Hd. unfold NewFrom, len.
  destruct (half_int (length elems)) as (k & -> & Hk); [done |].
  destruct (heapify_loop_run (S (length elems)) elems l k) as (d' & Hrun & Hrel);
    [done | lia | lia |].
  by exists d', k.
Qed.

Lemma heapify_length l d k d' : heapify l d k d' -> length d' = length d.
Proof.
  induction 1 as [| d k d1 i' d' Hs _ IH]; [done |].
  rewrite IH. by eapply sift_down_length.
Qed.

Lemma heapify_perm l d k d' : heapify l d k d' -> d' ≡ₚ d.
Proof.
  induction 1 as [| d k d1 i' d' Hs _ IH]; [done |].
  rewrite IH. by eapply sift_down_perm.
Qed.

Lemma heap_from_leaves l d k : length d <= 2 * k + 1 -> heap_from l k d.
Proof.
  intros Hlen i c x y Hk Hc _ Hy. apply lookup_lt_Some in Hy.
  unfold child in Hc. lia.
Qed.

Lemma heapify_restores l P d k d' :
  strict_weak_on l P -> Forall P d -> heap_from l k d -> heapify l d k d' ->
  heap_ordered l d'.
Proof.
  intros Hswo HP Hfrom Hh. revert HP Hfrom.
  induction Hh as [| d k d1 i' d' Hs _ IH]; intros HP Hfrom.
  - by apply heap_from_0.
  - apply IH.
    + by rewrite (sift_down_perm _ _ _ _ _ Hs).
    + eapply sift_down_restores; [done.. | | done]. split.
      * intros p c x y Hp Hne. apply Hfrom. lia.
      * intros g c x y Hg Hc. unfold child in Hc. lia.
Qed.

End Build.

(** ** What each operation does to a heap-ordered sequence *)

Section Specs.
Context {T : Type} `{ZT : Zero T}.
Context (l : T -> T -> bool) (P : T -> Prop) (Hswo : strict_weak_on l P).
Implicit Types d : list T.

Lemma replace_by_last_stored d i x :
  d !! i = Some x -> Forall P d -> Forall P (replace_by_last d i).
Proof.
  intros Hi HP. rewrite <- (replace_by_last_perm d i x Hi) in HP.
  by apply Forall_cons in HP as [_ ?].
Qed.

Lemma replace_by_last_root d :
  heap_ordered l d -> down_damaged l 0 (replace_by_last d 0) 0.
Proof.
  intros H. split.
  - intros p c x y _ Hne Hc Hx Hy.
    apply replace_by_last_lookup_ne in Hx; [| done].
    apply replace_by_last_lookup_ne in Hy; [| unfold child in Hc; lia].
    by eapply H.
  - intros g c x y _ Hg. unfold child in Hg. lia.
Qed.

Lemma replace_by_last_inner d i :
  Forall P d -> heap_ordered l d -> fix_damaged l (replace_by_last d i) i.
Proof.
  intros HP H. destruct (heap_ordered_fix_damaged l P Hswo d i HP H) as [H1 H2]. split.
  - intros p c x y Hp Hc Hpc Hx Hy.
    apply replace_by_last_lookup_ne in Hx, Hy; try done. by eapply (H1 p c).
  - intros g c x y Hg Hc Hx Hy.
    apply replace_by_last_lookup_ne in Hx, Hy; try (unfold child in *; lia).
    by eapply (H2 g c).
Qed.

Lemma snoc_up_damaged d x : heap_ordered l d -> up_damaged l (d ++ [x]) (length d).
Proof.
  intros H. split.
  - intros p c a b Hne Hc Ha Hb.
    assert (c < length d).
    { apply lookup_lt_Some in Hb. rewrite length_app in Hb; simpl in Hb. lia. }
    rewrite lookup_app_l in Ha, Hb by (unfold child in Hc; lia). by eapply H.
  - intros g c a b _ Hc _ Hb.
    apply lookup_lt_Some in Hb. rewrite length_app in Hb; simpl in Hb.
    unfold child in Hc. lia.
Qed.

Lemma Push_ordered d d' x :
  Forall P d -> P x -> heap_ordered l d -> sift_up l (d ++ [x]) (length d) d' ->
  heap_ordered l d'.
Proof.
  intros HP Hx H Hs. eapply sift_up_restores; [done | | by apply snoc_up_damaged | done].
  apply Forall_app. split; [done | by apply Forall_singleton].
Qed.

Lemma Pop_ordered d d' i' r :
  Forall P d -> d !! 0 = Some r -> heap_ordered l d ->
  sift_down l (replace_by_last d 0) 0 d' i' -> heap_ordered l d'.
Proof.
  intros HP Hr H Hs. apply heap_from_0.
  eapply sift_down_restores; [done | | by apply replace_by_last_root | done].
  by eapply replace_by_last_stored.
Qed.

Lemma Remove_ordered d d' i x :
  Forall P d -> d !! i = Some x -> heap_ordered l d ->
  restore l (replace_by_last d i) i d' -> heap_ordered l d'.
Proof.
  intros HP Hx H Hr.
  eapply restore_restores; [done | | by apply replace_by_last_inner | done].
  by eapply replace_by_last_stored.
Qed.

Lemma take_ordered d n : heap_ordered l d -> heap_ordered l (take n d).
Proof.
  intros H i c x y Hc Hx Hy.
  apply lookup_take_Some in Hx as [Hx _]. apply lookup_take_Some in Hy as [Hy _].
  by eapply H.
Qed.

Lemma Set_ordered d d' i x :
  Forall P d -> P x -> heap_ordered l d -> restore l (<[i := x]> d) i d' ->
  heap_ordered l d'.
Proof.
  intros HP Hx H Hr.
  eapply restore_restores; [done | | by eapply insert_fix_damaged | done].
  by apply Forall_insert.
Qed.

Lemma Fix_ordered d d' i :
  Forall P d -> fix_damaged l d i -> restore l d i d' -> heap_ordered l d'.
Proof. intros. by eapply restore_restores. Qed.

End Specs.

(** On a heap-ordered sequence neither loop moves anything, whatever the
    comparison function. *)
Section NoMove.
Context {T : Type} (l : T -> T -> bool).
Implicit Types d : list T.

Lemma sift_down_ordered d i d' i' :
  heap_ordered l d -> sift_down l d i d' i' -> d' = d /\ i' = i.
Proof.
  intros H Hs.
  inversion Hs as [| | d0 i0 j vi vj d0' i0' Hp Hi Hlt Hs']; subst; try done.
  apply pick_child in Hp as [Hc Hj].
  by rewrite (H i j vi vj Hc Hi Hj) in Hlt.
Qed.

Lemma sift_up_ordered d i d' : heap_ordered l d -> sift_up l d i d' -> d' = d.
Proof.
  intros H Hs.
  inversion Hs as [| | d0 i0 p vi vp d0' Hc Hi Hp Hlt Hs']; subst; try done.
  by rewrite (H p i vp vi Hc Hp Hi) in Hlt.
Qed.

Lemma restore_ordered d i d' : heap_ordered l d -> restore l d i d' -> d' = d.
Proof.
  intros H (d1 & i' & Hs & Hcase).
  apply (sift_down_ordered _ _ _ _ H) in Hs as [-> ->].
  destruct Hcase as [[Hlt _] | [_ Hu]]; [lia |].
  by eapply sift_up_ordered.
Qed.

End NoMove.

(** ** Contents and length after each operation *)

Section Contents.
Context {T : Type} `{ZT : Zero T}.
Implicit Types (d : list T) (l : T -> T -> bool).

Lemma Pop_contents d l r :
  slice_ok d -> d !! 0 = Some r ->
  exists d' i',
    Pop (mkHeap d l) = (Ret r, mkHeap d' l) /\
    sift_down l (replace_by_last d 0) 0 d' i' /\
    r :: d' ≡ₚ d /\ length d' = length d - 1.
Proof.
  intros Hd Hr. destruct (Pop_run d l r Hd Hr) as (d' & i' & Hrun & Hs).
  exists d', i'. repeat split; try done.
  - rewrite (sift_down_perm _ _ _ _ _ Hs). by apply replace_by_last_perm.
  - rewrite (sift_down_length _ _ _ _ _ Hs). apply replace_by_last_length.
Qed.

Lemma Push_contents d l x :
  slice_ok d -> (len d < GoInt.max_int)%Z ->
  exists d',
    Push x (mkHeap d l) = (Ret tt, mkHeap d' l) /\
    sift_up l (d ++ [x]) (length d) d' /\
    d' ≡ₚ x :: d /\ length d' = S (length d).
Proof.
  intros Hd Hlt. destruct (Push_run d l x Hd Hlt) as (d' & Hrun & Hs).
  exists d'. repeat split; try done.
  - rewrite (sift_up_perm _ _ _ _ Hs). symmetry. apply Permutation_cons_append.
  - rewrite (sift_up_length _ _ _ _ Hs), length_app; simpl. lia.
Qed.

(** [Remove] at any valid index, in the three cases of the code. *)
Lemma Remove_contents d l (i : nat) x :
  slice_ok d -> d !! i = Some x ->
  exists d',
    Remove (Z.of_nat i) (mkHeap d l) = (Ret x, mkHeap d' l) /\
    x :: d' ≡ₚ d /\ length d' = length d - 1 /\
    (i = 0 -> Remove (Z.of_nat i) (mkHeap d l) = Pop (mkHeap d l)) /\
    (S i = length d -> d' = take i d) /\
    (0 < i -> S i < length d -> restore l (replace_by_last d i) i d').
Proof.
  intros Hd Hx. apply lookup_lt_Some in Hx as Hlen.
  destruct (decide (i = 0)) as [-> | Hne].
  - assert (d <> []) as Hnil by (by intros ->).
    change (Z.of_nat 0) with 0%Z. rewrite (Remove_root d l Hd Hnil).
    destruct (Pop_contents d l x Hd Hx) as (d' & i' & Hrun & Hs & Hperm & Hl).
    exists d'. repeat split; try done; try lia.
    intros Hone. rewrite take_0.
    assert (length d' = 0) as Hz by lia. by destruct d'.
  - destruct (decide (S i = length d)) as [Hlast | Hinner].
    + exists (take i d). rewrite (Remove_last d l i x) by (done || lia).
      repeat split; try done; try lia.
      * rewrite <- (take_drop i d) at 2.
        rewrite (drop_S d x i Hx), drop_ge by lia.
        apply Permutation_cons_append.
      * rewrite length_take. lia.
    + destruct (Remove_inner d l i x) as (d' & Hrun & Hr); [done | lia | lia | done |].
      exists d'. repeat split; try done; try lia.
      * rewrite (restore_perm _ _ _ _ Hr). by apply replace_by_last_perm.
      * rewrite (restore_length _ _ _ _ Hr). apply replace_by_last_length.
Qed.

Lemma Set_contents d l (i : nat) x old :
  slice_ok d -> d !! i = Some old ->
  exists d',
    Set_ (Z.of_nat i) x (mkHeap d l) = (Ret tt, mkHeap d' l) /\
    restore l (<[i := x]> d) i d' /\
    old :: d' ≡ₚ x :: d /\ length d' = length d.
Proof.
  intros Hd Hold. apply lookup_lt_Some in Hold as Hlen.
  destruct (Set_run d l i x Hd Hlen) as (d' & Hrun & Hr).
  exists d'. repeat split; try done.
  - rewrite (restore_perm _ _ _ _ Hr). by apply insert_swap_head.
  - by rewrite (restore_length _ _ _ _ Hr), length_insert.
Qed.

End Contents.

(** ** The client loops on a heap-ordered sequence *)

Section Clients.
Context {T : Type} `{ZT : Zero T}.
Context (l : T -> T -> bool) (P : T -> Prop) (Hswo : strict_weak_on l P).
Implicit Types d : list T.

Lemma Pop_minimum d d' r :
  Forall P d -> heap_ordered l d -> d !! 0 = Some r -> r :: d' ≡ₚ d ->
  forall y, y ∈ d' -> l y r = false.
Proof.
  intros HP H Hr Hperm y Hy.
  apply (heap_ordered_root l P Hswo d HP H r y Hr).
  rewrite <- Hperm. by right.
Qed.

Lemma pop_loop_sorted budget d :
  slice_ok d -> Forall P d -> heap_ordered l d -> length d < budget ->
  exists ys,
    pop_loop budget (mkHeap d l) = (Ret ys, mkHeap [] l) /\
    ys ≡ₚ d /\ StronglySorted (pop_le l) ys.
Proof.
  revert d. induction budget as [| budget IH]; intros d Hd HP H Hb; [lia |].
  cbn [pop_loop]. unfold bind at 1. rewrite Len_run.
  destruct (decide (length d = 0)) as [Hz | Hnz].
  { assert (d = []) as -> by (by destruct d).
    exists []. repeat split; [done | constructor]. }
  destruct (lookup_lt_is_Some_2 d 0) as [r Hr]; [lia |].
  destruct (Z.gtb_spec (len d) 0) as [_ | Hle]; [| unfold len in Hle; lia].
  destruct (Pop_contents d l r Hd Hr) as (d' & i' & Hrun & Hs & Hperm & Hlen).
  unfold bind at 1. rewrite Hrun.
  destruct (IH d') as (ys & Hloop & Hys & Hsorted).
  - unfold slice_ok, len in *. lia.
  - rewrite <- Hperm in HP. by apply Forall_cons in HP as [_ ?].
  - by eapply Pop_ordered.
  - lia.
  - unfold bind. rewrite Hloop. exists (r :: ys). repeat split.
    + by rewrite Hys.
    + constructor; [done |]. apply Forall_forall. intros y Hy.
      apply (Pop_minimum d d' r HP H Hr Hperm).
      by rewrite <- Hys.
Qed.

Lemma pop_all_sorted d :
  slice_ok d -> Forall P d -> heap_ordered l d ->
  exists ys,
    pop_all (mkHeap d l) = (Ret ys, mkHeap [] l) /\
    ys ≡ₚ d /\ StronglySorted (pop_le l) ys.
Proof. intros. unfold pop_all; cbn [data]. apply pop_loop_sorted; (done || lia). Qed.

Lemma push_all_ordered xs d :
  (len d + len xs <= GoInt.max_int)%Z -> Forall P d -> Forall P xs ->
  heap_ordered l d ->
  exists d',
    push_all xs (mkHeap d l) = (Ret tt, mkHeap d' l) /\
    d' ≡ₚ d ++ xs /\ heap_ordered l d'.
Proof.
  revert d. induction xs as [| x xs IH]; intros d Hlen HP Hxs H.
  { exists d. by rewrite app_nil_r. }
  apply Forall_cons in Hxs as [Hx Hxs]. unfold len in *. simpl in Hlen.
  destruct (Push_contents d l x) as (d1 & Hrun & Hs & Hperm & Hl1).
  { unfold slice_ok, len. lia. }
  { unfold len. lia. }
  destruct (IH d1) as (d' & Hrun' & Hperm' & H').
  - lia.
  - rewrite Hperm. by constructor.
  - done.
  - by eapply (Push_ordered l P Hswo d d1 x).
  - exists d'. cbn [push_all]. unfold bind. rewrite Hrun. repeat split; try done.
    rewrite Hperm', Hperm. simpl. apply Permutation_middle.
Qed.

End Clients.

(** ** Every call returns or panics *)

Section Outcomes.
Context {T : Type} `{ZT : Zero T}.
Implicit Types (d : list T) (l : T -> T -> bool) (h : Heap T).

Lemma index_cases (i : Z) h :
  (exists v, index i h = (Ret v, h)) \/ index i h = (Panic rt_index, h).
Proof.
  unfold index. destruct (i <? 0)%Z; [by right |].
  destruct (data h !! Z.to_nat i); [left; by eexists | by right].
Qed.

Lemma index_range d l (i : Z) :
  (i < 0 \/ len d <= i)%Z -> index i (mkHeap d l) = (Panic rt_index, mkHeap d l).
Proof.
  intros Hi. unfold index, len in *; cbn [data].
  destruct (Z.ltb_spec i 0); [done |].
  rewrite lookup_ge_None_2; [done | lia].
Qed.

(** The loop of [down] from any start index: it returns, or it stops at a
    run-time panic before the first assignment. *)
Lemma down_loop_total budget d l (i : Z) :
  slice_ok d -> length d < budget ->
  fst (down_loop budget (len d) i (mkHeap d l)) <> Diverge.
Proof.
  intros Hd Hb.
  destruct (decide (0 <= i <= GoInt.max_int)%Z) as [Hin | Hout].
  - destruct (down_loop_run budget d l (Z.to_nat i)) as (d' & i' & Hrun & _);
      [done | lia | lia |].
    rewrite Z2Nat.id in Hrun by lia. by rewrite Hrun.
  - destruct budget as [| budget]; [lia |]. cbn [down_loop].
    assert (index i (mkHeap d l) = (Panic rt_index, mkHeap d l)) as Hi.
    { apply index_range. unfold slice_ok in Hd. lia. }
    destruct (_ || _)%bool; [done |].
    unfold bind, call_less, ret.
    repeat match goal with
    | |- context [index ?j (mkHeap d l)] =>
        lazymatch j with
        | i => rewrite Hi
        | _ => destruct (index_cases j (mkHeap d l)) as [[? ->] | ->]
        end
    | |- context [if ?c then _ else _] => destruct c
    end; done.
Qed.

Lemma up_loop_total budget d l (i : Z) :
  slice_ok d -> length d < budget ->
  fst (up_loop budget i (mkHeap d l)) <> Diverge.
Proof.
  intros Hd Hb.
  destruct (decide (0 <= i < len d)%Z) as [Hin | Hout].
  - unfold len in Hin.
    destruct (up_loop_run budget d l (Z.to_nat i)) as (d' & Hrun & _);
      [done | lia | lia |].
    rewrite Z2Nat.id in Hrun by lia. by rewrite Hrun.
  - destruct budget as [| budget]; [lia |]. cbn [up_loop].
    destruct (Z.eqb_spec i 0) as [-> | Hne]; [done |].
    unfold bind. rewrite index_range; [done |]. unfold len in *. lia.
Qed.

Lemma down_total d l (i : Z) : slice_ok d -> fst (down i (mkHeap d l)) <> Diverge.
Proof.
  intros Hd. unfold down, bind, get_len; cbn [data].
  pose proof (down_loop_total (S (length d)) d l i Hd ltac:(lia)) as Hl.
  by destruct (down_loop _ _ _ _) as [[] ?].
Qed.

Lemma up_total d l (i : Z) : slice_ok d -> fst (up i (mkHeap d l)) <> Diverge.
Proof. intros Hd. unfold up; cbn [data]. apply up_loop_total; [done | lia]. Qed.

Lemma Pop_outcome d l :
  slice_ok d ->
  (len d = 0%Z /\ raises (Pop (mkHeap d l)) "heap: Pop called on empty heap" (mkHeap d l)) \/
  (len d <> 0%Z /\ returns (Pop (mkHeap d l)) l).
Proof.
  intros Hd. destruct d as [| r d0]; [left; by split |].
  right. split; [done |].
  destruct (Pop_run (r :: d0) l r Hd eq_refl) as (d' & i' & Hrun & _).
  by exists r, d'.
Qed.

Lemma Peek_outcome d l :
  (len d = 0%Z /\ raises (Peek (mkHeap d l)) "heap: Peek called on empty heap" (mkHeap d l)) \/
  (len d <> 0%Z /\ returns (Peek (mkHeap d l)) l).
Proof.
  destruct d as [| r d0]; [left; by split |].
  right. split; [done |]. exists r, (r :: d0). by apply Peek_run.
Qed.

Lemma valid_index d (i : Z) :
  ~ (i < 0 \/ len d <= i)%Z ->
  exists (k : nat) x, i = Z.of_nat k /\ d !! k = Some x.
Proof.
  intros Hi. unfold len in Hi.
  destruct (lookup_lt_is_Some_2 d (Z.to_nat i)) as [x Hx]; [lia |].
  exists (Z.to_nat i), x. split; [lia | done].
Qed.

Lemma At_outcome d l (i : Z) :
  ((i < 0 \/ len d <= i)%Z /\
     raises (At i (mkHeap d l)) "heap: At index out of range" (mkHeap d l)) \/
  (~ (i < 0 \/ len d <= i)%Z /\ returns (At i (mkHeap d l)) l).
Proof.
  destruct (decide (i < 0 \/ len d <= i)%Z) as [Hout | Hin].
  - left. split; [done | by apply At_range].
  - right. split; [done |]. destruct (valid_index d i Hin) as (k & x & -> & Hx).
    exists x, d. by apply At_run.
Qed.

Lemma Remove_outcome d l (i : Z) :
  slice_ok d ->
  ((i < 0 \/ len d <= i)%Z /\
     raises (Remove i (mkHeap d l)) "heap: Remove index out of range" (mkHeap d l)) \/
  (~ (i < 0 \/ len d <= i)%Z /\ returns (Remove i (mkHeap d l)) l).
Proof.
  intros Hd. destruct (decide (i < 0 \/ len d <= i)%Z) as [Hout | Hin].
  - left. split; [done | by apply Remove_range].
  - right. split; [done |]. destruct (valid_index d i Hin) as (k & x & -> & Hx).
    destruct (Remove_contents d l k x Hd Hx) as (d' & Hrun & _).
    by exists x, d'.
Qed.

Lemma Set_outcome d l (i : Z) x :
  slice_ok d ->
  ((i < 0 \/ len d <= i)%Z /\
     raises (Set_ i x (mkHeap d l)) "heap: Set index out of range" (mkHeap d l)) \/
  (~ (i < 0 \/ len d <= i)%Z /\ returns (Set_ i x (mkHeap d l)) l).
Proof.
  intros Hd. destruct (decide (i < 0 \/ len d <= i)%Z) as [Hout | Hin].
  - left. split; [done | by apply Set_range].
  - right. split; [done |]. destruct (valid_index d i Hin) as (k & old & -> & Hx).
    destruct (Set_contents d l k x old Hd Hx) as (d' & Hrun & _).
    by exists tt, d'.
Qed.

Lemma Fix_outcome d l (i : Z) :
  slice_ok d ->
  ((i < 0 \/ len d <= i)%Z /\
     raises (Fix i (mkHeap d l)) "heap: Fix index out of range" (mkHeap d l)) \/
  (~ (i < 0 \/ len d <= i)%Z /\ returns (Fix i (mkHeap d l)) l).
Proof.
  intros Hd. destruct (decide (i < 0 \/ len d <= i)%Z) as [Hout | Hin].
  - left. split; [done | by apply Fix_range].
  - right. split; [done |]. destruct (valid_index d i Hin) as (k & x & -> & Hx).
    apply lookup_lt_Some in Hx.
    destruct (Fix_run d l k Hd Hx) as (d' & Hrun & _).
    by exists tt, d'.
Qed.

Lemma Push_outcome d l x :
  slice_ok d ->
  (len d = GoInt.max_int /\ raises (Push x (mkHeap d l)) rt_grow (mkHeap d l)) \/
  (len d <> GoInt.max_int /\ returns (Push x (mkHeap d l)) l).
Proof.
  intros Hd. destruct (decide (len d = GoInt.max_int)) as [Hfull | Hroom].
  - left. split; [done | by apply Push_full].
  - right. split; [done |].
    destruct (Push_run d l x Hd) as (d' & Hrun & _); [unfold slice_ok in Hd; lia |].
    by exists tt, d'.
Qed.

End Outcomes.

(** ** Well-formed heaps and the states a client can reach *)

Section Valid.
Context {T : Type} `{ZT : Zero T}.
Context (l : T -> T -> bool) (P : T -> Prop) (Hswo : strict_weak_on l P).
Implicit Types (d : list T) (h : Heap T).

Lemma New_valid : valid l P (New l).
Proof.
  by repeat split.
Qed.

Lemma NewFrom_valid elems h :
  slice_ok elems -> Forall P elems -> NewFrom l elems = (Ret tt, h) ->
  valid l P h /\ data h ≡ₚ elems.
Proof.
  intros Hd HP Hrun.
  destruct (NewFrom_run l elems Hd) as (d' & k & Hrun' & Hk & Hh).
  rewrite Hrun' in Hrun. injection Hrun as <-. cbn [data].
  pose proof (heapify_perm _ _ _ _ Hh) as Hperm.
  split; [| done]. repeat split; cbn [data less].
  - unfold slice_ok, len in *. by rewrite (heapify_length _ _ _ _ Hh).
  - by rewrite Hperm.
  - eapply heapify_restores; [done.. | | done]. apply heap_from_leaves. lia.
Qed.

Lemma Push_valid h x h' :
  valid l P h -> P x -> Push x h = (Ret tt, h') -> valid l P h' /\ data h' ≡ₚ x :: data h.
Proof.
  destruct h as [d l0]. intros (Hl & Hd & HP & H) Hx Hrun; cbn [data less] in *; subst l0.
  destruct (Push_outcome d l x Hd) as [[_ Hp] | [Hroom _]].
  { unfold raises in Hp. by rewrite Hp in Hrun. }
  destruct (Push_contents d l x Hd) as (d' & Hrun' & Hs & Hperm & Hlen).
  { unfold slice_ok in Hd. lia. }
  rewrite Hrun' in Hrun. injection Hrun as <-. cbn [data].
  split; [| done]. repeat split; cbn [data less].
  - unfold slice_ok, len in *. lia.
  - rewrite Hperm. by constructor.
  - by eapply (Push_ordered l P Hswo d d' x).
Qed.

Lemma Pop_valid h x h' :
  valid l P h -> Pop h = (Ret x, h') ->
  valid l P h' /\ x :: data h' ≡ₚ data h /\ data h !! 0 = Some x.
Proof.
  destruct h as [d l0]. intros (Hl & Hd & HP & H) Hrun; cbn [data less] in *; subst l0.
  destruct d as [| r d0]; [done |].
  destruct (Pop_contents (r :: d0) l r Hd eq_refl) as (d' & i' & Hrun' & Hs & Hperm & Hlen).
  rewrite Hrun' in Hrun. injection Hrun as <- <-. cbn [data].
  split; [| done]. repeat split; cbn [data less].
  - unfold slice_ok, len in *. lia.
  - rewrite <- Hperm in HP. by apply Forall_cons in HP as [_ ?].
  - by eapply (Pop_ordered l P Hswo (r :: d0)).
Qed.

(** [Remove] at a valid index keeps the heap order. *)
Lemma Remove_restores d (i : nat) x :
  slice_ok d -> Forall P d -> heap_ordered l d -> d !! i = Some x ->
  exists d',
    Remove (Z.of_nat i) (mkHeap d l) = (Ret x, mkHeap d' l) /\
    x :: d' ≡ₚ d /\ length d' = length d - 1 /\ heap_ordered l d'.
Proof.
  intros Hd HP H Hx. apply lookup_lt_Some in Hx as Hlen.
  destruct (Remove_contents d l i x Hd Hx) as (d' & Hrun & Hperm & Hl & Hroot & Hlast & Hin).
  exists d'. repeat split; try done.
  destruct (decide (i = 0)) as [-> | Hne].
  - destruct (Pop_contents d l x Hd Hx) as (d1 & i' & Hpop & Hs & _).
    rewrite Hroot, Hpop in Hrun by done. injection Hrun as ->.
    by eapply (Pop_ordered l P Hswo d).
  - destruct (decide (S i = length d)) as [Hend | Hmid].
    + rewrite (Hlast Hend). by apply take_ordered.
    + eapply (Remove_ordered l P Hswo d d' i x); try done. apply Hin; lia.
Qed.

Lemma Remove_valid h (i : Z) x h' :
  valid l P h -> Remove i h = (Ret x, h') ->
  valid l P h' /\ x :: data h' ≡ₚ data h /\ data h !! Z.to_nat i = Some x.
Proof.
  destruct h as [d l0]. intros (Hl & Hd & HP & H) Hrun; cbn [data less] in *; subst l0.
  destruct (Remove_outcome d l i Hd) as [[_ Hp] | [Hin _]].
  { unfold raises in Hp. by rewrite Hp in Hrun. }
  destruct (valid_index d i Hin) as (k & y & -> & Hy).
  destruct (Remove_restores d k y Hd HP H Hy) as (d' & Hrun' & Hperm & Hlen & H').
  rewrite Hrun' in Hrun. injection Hrun as <- <-. cbn [data]. rewrite Nat2Z.id.
  split; [| done]. repeat split; cbn [data less]; try done.
  - unfold slice_ok, len in *. lia.
  - rewrite <- Hperm in HP. by apply Forall_cons in HP as [_ ?].
Qed.

Lemma Set_restores d (i : nat) x old :
  slice_ok d -> Forall P d -> heap_ordered l d -> P x -> d !! i = Some old ->
  exists d',
    Set_ (Z.of_nat i) x (mkHeap d l) = (Ret tt, mkHeap d' l) /\
    old :: d' ≡ₚ x :: d /\ length d' = length d /\ Forall P d' /\ heap_ordered l d'.
Proof.
  intros Hd HP H Hx Hold.
  destruct (Set_contents d l i x old Hd Hold) as (d' & Hrun & Hr & Hperm & Hlen).
  exists d'. repeat split; try done.
  - rewrite (restore_perm _ _ _ _ Hr). by apply Forall_insert.
  - by eapply (Set_ordered l P Hswo d d' i x).
Qed.

Lemma Set_valid h (i : Z) x h' :
  valid l P h -> P x -> Set_ i x h = (Ret tt, h') -> valid l P h'.
Proof.
  destruct h as [d l0]. intros (Hl & Hd & HP & H) Hx Hrun; cbn [data less] in *; subst l0.
  destruct (Set_outcome d l i x Hd) as [[_ Hp] | [Hin _]].
  { unfold raises in Hp. by rewrite Hp in Hrun. }
  destruct (valid_index d i Hin) as (k & old & -> & Hold).
  destruct (Set_restores d k x old Hd HP H Hx Hold) as (d' & Hrun' & _ & Hlen & HP' & H').
  rewrite Hrun' in Hrun. injection Hrun as <-.
  repeat split; cbn [data less]; try done.
  unfold slice_ok, len in *. lia.
Qed.

Lemma Fix_valid h (i : Z) h' : valid l P h -> Fix i h = (Ret tt, h') -> h' = h.
Proof.
  destruct h as [d l0]. intros (Hl & Hd & HP & H) Hrun; cbn [data less] in *; subst l0.
  destruct (Fix_outcome d l i Hd) as [[_ Hp] | [Hin _]].
  { unfold raises in Hp. by rewrite Hp in Hrun. }
  destruct (valid_index d i Hin) as (k & x & -> & Hx). apply lookup_lt_Some in Hx.
  destruct (Fix_run d l k Hd Hx) as (d' & Hrun' & Hr).
  rewrite Hrun' in Hrun. injection Hrun as <-.
  by rewrite (restore_ordered l d k d' H Hr).
Qed.

Lemma reachable_valid h : reachable l P h -> valid l P h.
Proof.
  induction 1 as [| elems h Hd HP Hrun | h x h' _ IH Hx Hrun | h x h' _ IH Hrun
                  | h i x h' _ IH Hrun | h i x h' _ IH Hx Hrun | h i h' _ IH Hrun].
  - apply New_valid.
  - by apply (NewFrom_valid elems h).
  - by apply (Push_valid h x h').
  - by apply (Pop_valid h x h').
  - by apply (Remove_valid h i x h').
  - by apply (Set_valid h i x h').
  - by rewrite (Fix_valid h i h').
Qed.

End Valid.

(** ** A larger budget changes nothing *)

Section Budget.
Context {T : Type} `{ZT : Zero T}.
Implicit Types (h : Heap T).

Lemma down_loop_more budget n (i : Z) h :
  fst (down_loop budget n i h) <> Diverge ->
  down_loop (S budget) n i h = down_loop budget n i h.
Proof.
  revert i h. induction budget as [| budget IH]; intros i h Hnd; [done |].
  remember (S budget) as b eqn:Eb.
  rewrite Eb in Hnd at 1. rewrite Eb at 2. cbn [down_loop] in *.
  destruct (_ || _)%bool; [done |].
  unfold bind in *.
  repeat match goal with
  | |- context [match ?m ?s with _ => _ end] =>
      lazymatch m with
      | down_loop _ _ _ => fail
      | _ => destruct (m s) as [[? | ? |] ?]; try done
      end
  | |- context [if ?c then _ else _] => destruct c; try done
  end.
  all: subst b; by rewrite IH by (by destruct (down_loop budget _ _ _) as [[] ?]).
Qed.

Lemma up_loop_more budget (i : Z) h :
  fst (up_loop budget i h) <> Diverge ->
  up_loop (S budget) i h = up_loop budget i h.
Proof.
  revert i h. induction budget as [| budget IH]; intros i h Hnd; [done |].
  remember (S budget) as b eqn:Eb.
  rewrite Eb in Hnd at 1. rewrite Eb at 2. cbn [up_loop] in *.
  unfold bind in *.
  repeat match goal with
  | |- context [match ?m ?s with _ => _ end] =>
      lazymatch m with
      | up_loop _ _ => fail
      | _ => destruct (m s) as [[? | ? |] ?]; try done
      end
  | |- context [if ?c then _ else _] => destruct c; try done
  end.
  all: subst b; by rewrite IH by (by destruct (up_loop budget _ _) as [[] ?]).
Qed.

Lemma down_loop_enough budget budget' n (i : Z) h :
  fst (down_loop budget n i h) <> Diverge -> budget <= budget' ->
  down_loop budget' n i h = down_loop budget n i h.
Proof.
  intros Hnd. induction 1 as [| b Hle IH]; [done |].
  rewrite down_loop_more; [done | by rewrite IH].
Qed.

Lemma up_loop_enough budget budget' (i : Z) h :
  fst (up_loop budget i h) <> Diverge -> budget <= budget' ->
  up_loop budget' i h = up_loop budget i h.
Proof.
  intros Hnd. induction 1 as [| b Hle IH]; [done |].
  rewrite up_loop_more; [done | by rewrite IH].
Qed.

End Budget.

(** * The properties of the specification *)

(** ** Orders used in the examples *)

Lemma po_less_strict : strict_order_on po_less every.
Proof.
  split; unfold po_less.
  - intros a _. destruct (Z.eqb_spec a 1), (Z.eqb_spec a 3); (done || lia).
  - intros a b c _ _ _ Hab Hbc.
    destruct (Z.eqb_spec a 1), (Z.eqb_spec b 3), (Z.eqb_spec b 1); (done || lia).
Qed.

Lemma Zltb_weak : strict_weak_on Z.ltb every.
Proof.
  split.
  - intros a b _ _ Hab. apply Z.ltb_lt in Hab. apply Z.ltb_ge. lia.
  - intros a b c _ _ _ Hab Hbc. apply Z.ltb_ge in Hab, Hbc. apply Z.ltb_ge. lia.
Qed.

Lemma Zgtb_weak : strict_weak_on Z.gtb every.
Proof.
  split.
  - intros a b _ _. rewrite !Z.gtb_ltb. intros Hab.
    apply Z.ltb_lt in Hab. apply Z.ltb_ge. lia.
  - intros a b c _ _ _. rewrite !Z.gtb_ltb. intros Hab Hbc.
    apply Z.ltb_ge in Hab, Hbc. apply Z.ltb_ge. lia.
Qed.

Lemma every_all (xs : list Z) : Forall every xs.
Proof. by apply Forall_forall. Qed.

Lemma small_slice {T} (d : list T) : length d < 1000 -> slice_ok d.
Proof. unfold slice_ok, len, GoInt.max_int. lia. Qed.

(** ** C1: the heap-order invariant of reachable heaps *)

(** C1, as stated, at a strict partial order: after four calls of [Push] and
    one of [Pop] the element at index 2 is below the root. *)
Lemma heap_order_invariant_partial_order :
  strict_order_on po_less every /\
  reachable po_less every (mkHeap [3; 2; 1]%Z po_less) /\
  ~ heap_ordered po_less [3; 2; 1]%Z.
Proof.
  split; [apply po_less_strict |]. split.
  - apply (reach_Pop _ _ (mkHeap [2; 2; 1; 3]%Z po_less) 2%Z); [| reflexivity].
    apply (reach_Push _ _ (mkHeap [2; 2; 1]%Z po_less) 3%Z); [| done | reflexivity].
    apply (reach_Push _ _ (mkHeap [2; 2]%Z po_less) 1%Z); [| done | reflexivity].
    apply (reach_Push _ _ (mkHeap [2]%Z po_less) 2%Z); [| done | reflexivity].
    apply (reach_Push _ _ (New po_less) 2%Z); [| done | reflexivity].
    apply reach_New.
  - intros H. by specialize (H 0 2 3%Z 1%Z (or_intror eq_refl) eq_refl eq_refl).
Qed.

(** C1 (amended): when [less] is a strict weak order on the inserted
    elements, every heap reached from [New] or [NewFrom] by any sequence of
    returning [Push], [Pop], [Remove], [Set] and [Fix] calls is heap ordered:
    for every index [i] with a child [c] (at [2i+1] or [2i+2]) within
    bounds, [less (elements c) (elements i)] is false; and the element at
    index 0, when present, has no element below it. *)
Theorem heap_order_invariant {T} `{Zero T} (l : T -> T -> bool) (P : T -> Prop)
    (h : Heap T) :
  strict_weak_on l P -> reachable l P h ->
  less h = l /\ heap_ordered l (data h) /\ root_minimal l (data h).
Proof.
  intros Hswo Hr. destruct (reachable_valid l P Hswo h Hr) as (Hl & _ & HP & Hord).
  repeat split; [done | done |]. by apply (heap_ordered_root l P Hswo).
Qed.

Lemma heap_order_invariant_witness :
  less (mkHeap [3; 7]%Z Z.ltb) = Z.ltb /\
  heap_ordered Z.ltb [3; 7]%Z /\ root_minimal Z.ltb [3; 7]%Z.
Proof.
  apply (heap_order_invariant Z.ltb every (mkHeap [3; 7]%Z Z.ltb)).
  - apply Zltb_weak.
  - apply (reach_Push _ _ (mkHeap [7]%Z Z.ltb) 3%Z); [| exact I | reflexivity].
    apply (reach_Push _ _ (New Z.ltb) 7%Z); [| exact I | reflexivity].
    apply reach_New.
Defined.

(** ** C2: [Pop] *)

(** C2, as stated, at a strict partial order: the sequence is heap ordered,
    [Pop] returns the root [3], and [1], which remains, is below it. *)
Lemma Pop_minimum_partial_order :
  strict_order_on po_less every /\
  heap_ordered po_less [3; 2; 2; 1]%Z /\
  Pop (mkHeap [3; 2; 2; 1]%Z po_less) = (Ret 3%Z, mkHeap [1; 2; 2]%Z po_less) /\
  1%Z ∈ [1; 2; 2]%Z /\ po_less 1 3 = true.
Proof.
  split; [apply po_less_strict |].
  split; [by apply heap_ordered_b_sound |].
  repeat split. by left.
Qed.

(** C2 (amended): when [less] is a strict weak order on the stored
    elements, [Pop] on a non-empty heap-ordered heap returns the element
    previously at index 0, no remaining element is below it, the new
    sequence is the old one with its last element moved to position 0, cut
    by one and sifted down from the root, the contents are the old ones
    minus one occurrence of the returned element, and the length drops by
    exactly 1. *)
Theorem Pop_returns_minimum {T} `{Zero T} (l : T -> T -> bool) (P : T -> Prop)
    (d : list T) :
  strict_weak_on l P -> slice_ok d -> Forall P d -> heap_ordered l d ->
  (0 < len d)%Z ->
  exists r d' i',
    d !! 0 = Some r /\
    Pop (mkHeap d l) = (Ret r, mkHeap d' l) /\
    (forall y, y ∈ d' -> l y r = false) /\
    sift_down l (replace_by_last d 0) 0 d' i' /\
    r :: d' ≡ₚ d /\
    (len d' = len d - 1)%Z.
Proof.
  intros Hswo Hd HP Hord Hlen. unfold len in *.
  destruct (lookup_lt_is_Some_2 d 0) as [r Hr]; [lia |].
  destruct (Pop_contents d l r Hd Hr) as (d' & i' & Hrun & Hs & Hperm & Hl).
  exists r, d', i'. repeat split; try done; [| lia].
  by apply (Pop_minimum l P Hswo d d' r).
Qed.

Lemma Pop_returns_minimum_witness :
  exists r d' i',
    [1; 5; 3]%Z !! 0 = Some r /\
    Pop (mkHeap [1; 5; 3]%Z Z.ltb) = (Ret r, mkHeap d' Z.ltb) /\
    (forall y, y ∈ d' -> Z.ltb y r = false) /\
    sift_down Z.ltb (replace_by_last [1; 5; 3]%Z 0) 0 d' i' /\
    r :: d' ≡ₚ [1; 5; 3]%Z /\
    (len d' = len [1; 5; 3]%Z - 1)%Z.
Proof.
  apply (Pop_returns_minimum Z.ltb every [1; 5; 3]%Z).
  - apply Zltb_weak.
  - apply small_slice. simpl. lia.
  - apply every_all.
  - by apply heap_ordered_b_sound.
  - reflexivity.
Defined.

(** ** C3: the order of popped values *)

(** C3, as stated, at a strict partial order: after pushing 3, 2, 2, 1 the
    loop pops 3 before 1, although 1 is below 3. *)
Lemma Pop_order_partial_order :
  strict_order_on po_less every /\
  push_all [3; 2; 2; 1]%Z (New po_less) = (Ret tt, mkHeap [3; 2; 2; 1]%Z po_less) /\
  pop_all (mkHeap [3; 2; 2; 1]%Z po_less) = (Ret [3; 1; 2; 2]%Z, New po_less) /\
  ~ Sorted (pop_le po_less) [3; 1; 2; 2]%Z.
Proof.
  split; [apply po_less_strict |]. repeat split.
  intros Hs. inversion Hs as [| a ys _ Hhd]; subst.
  inversion Hhd as [| b zs Hle]; subst. by vm_compute in Hle.
Qed.

(** C3 (amended): when [less] is a strict weak order on the pushed values,
    pushing any finite sequence onto an empty heap and then popping until the
    heap is empty delivers the pushed values in non-decreasing order: no
    value is below one popped before it. Pushing 9, 4, 3, 0, 6 with integer
    [<] and popping five times yields 0, 3, 4, 6, 9. *)
Theorem Pop_order {T} `{Zero T} (l : T -> T -> bool) (P : T -> Prop) (xs : list T) :
  strict_weak_on l P -> Forall P xs -> slice_ok xs ->
  (exists d ys,
     push_all xs (New l) = (Ret tt, mkHeap d l) /\
     pop_all (mkHeap d l) = (Ret ys, New l) /\
     ys ≡ₚ xs /\
     StronglySorted (pop_le l) ys) /\
  pop_all (snd (push_all [9; 4; 3; 0; 6]%Z (New Z.ltb)))
    = (Ret [0; 3; 4; 6; 9]%Z, New Z.ltb).
Proof.
  intros Hswo HP Hd. split; [| reflexivity].
  destruct (push_all_ordered l P Hswo xs []) as (d & Hpush & Hperm & Hord);
    [unfold slice_ok, len in *; simpl; lia | done | done | done |].
  destruct (pop_all_sorted l P Hswo d) as (ys & Hpop & Hys & Hsorted).
  - unfold slice_ok, len in *. rewrite Hperm. simpl. lia.
  - by rewrite Hperm.
  - done.
  - exists d, ys. repeat split; try done. by rewrite Hys, Hperm.
Qed.

Lemma Pop_order_witness :
  (exists d ys,
     push_all [2; 1]%Z (New Z.ltb) = (Ret tt, mkHeap d Z.ltb) /\
     pop_all (mkHeap d Z.ltb) = (Ret ys, New Z.ltb) /\
     ys ≡ₚ [2; 1]%Z /\
     StronglySorted (pop_le Z.ltb) ys) /\
  pop_all (snd (push_all [9; 4; 3; 0; 6]%Z (New Z.ltb)))
    = (Ret [0; 3; 4; 6; 9]%Z, New Z.ltb).
Proof.
  apply (Pop_order Z.ltb every [2; 1]%Z).
  - apply Zltb_weak.
  - apply every_all.
  - apply small_slice. simpl. lia.
Defined.

(** ** C4: construction from a slice *)




(** ** C5: [Remove] *)

(** C5, as stated, at a strict partial order: the sequence is heap ordered,
    [Remove 1] moves the last element [3] to index 1 and stops, above its
    child [1] at index 4. *)
Lemma Remove_partial_order :
  strict_order_on po_less every /\
  heap_ordered po_less [2; 2; 2; 2; 1; 2; 2; 3]%Z /\
  Remove 1 (mkHeap [2; 2; 2; 2; 1; 2; 2; 3]%Z po_less)
    = (Ret 2%Z, mkHeap [2; 3; 2; 2; 1; 2; 2]%Z po_less) /\
  ~ heap_ordered po_less [2; 3; 2; 2; 1; 2; 2]%Z.
Proof.
  split; [apply po_less_strict |].
  split; [by apply heap_ordered_b_sound |]. split; [reflexivity |].
  intros H. by specialize (H 1 4 3%Z 1%Z (or_intror eq_refl) eq_refl eq_refl).
Qed.

(** C5 (amended): when [less] is a strict weak order on the stored
    elements, [Remove i] on a heap-ordered heap, for [0 <= i <= Len()-1],
    returns the element at position [i], removes exactly that one occurrence
    and leaves a heap-ordered heap. For [i = 0] it is [Pop]; for the last
    index it cuts the sequence by one and reorders nothing; otherwise it
    moves the last element into slot [i], cuts by one, sifts down at [i] and,
    when that reports no move, sifts up at [i]. *)
Theorem Remove_spec {T} `{Zero T} (l : T -> T -> bool) (P : T -> Prop)
    (d : list T) (i : Z) :
  strict_weak_on l P -> slice_ok d -> Forall P d -> heap_ordered l d ->
  (0 <= i <= len d - 1)%Z ->
  exists x d',
    d !! Z.to_nat i = Some x /\
    Remove i (mkHeap d l) = (Ret x, mkHeap d' l) /\
    x :: d' ≡ₚ d /\
    heap_ordered l d' /\
    (i = 0%Z -> Remove i (mkHeap d l) = Pop (mkHeap d l)) /\
    (i = (len d - 1)%Z -> d' = take (Z.to_nat i) d) /\
    ((0 < i < len d - 1)%Z ->
       restore l (replace_by_last d (Z.to_nat i)) (Z.to_nat i) d').
Proof.
  intros Hswo Hd HP Hord Hi. unfold len in *.
  destruct (lookup_lt_is_Some_2 d (Z.to_nat i)) as [x Hx]; [lia |].
  destruct (Remove_restores l P Hswo d (Z.to_nat i) x Hd HP Hord Hx)
    as (d' & Hrun & Hperm & Hlen & Hord').
  destruct (Remove_contents d l (Z.to_nat i) x Hd Hx)
    as (d1 & Hrun1 & _ & _ & Hroot & Hlast & Hin).
  rewrite Hrun in Hrun1. injection Hrun1 as <-.
  rewrite Z2Nat.id in Hrun, Hroot by lia.
  exists x, d'. repeat split; try done.
  - intros ->. by apply Hroot.
  - intros Hend. apply Hlast. lia.
  - intros Hmid. apply Hin; lia.
Qed.

Lemma Remove_spec_witness :
  exists x d',
    [1; 5; 3; 8]%Z !! Z.to_nat 1 = Some x /\
    Remove 1 (mkHeap [1; 5; 3; 8]%Z Z.ltb) = (Ret x, mkHeap d' Z.ltb) /\
    x :: d' ≡ₚ [1; 5; 3; 8]%Z /\
    heap_ordered Z.ltb d' /\
    (1%Z = 0%Z ->
       Remove 1 (mkHeap [1; 5; 3; 8]%Z Z.ltb) = Pop (mkHeap [1; 5; 3; 8]%Z Z.ltb)) /\
    (1%Z = (len [1; 5; 3; 8]%Z - 1)%Z -> d' = take (Z.to_nat 1) [1; 5; 3; 8]%Z) /\
    ((0 < 1 < len [1; 5; 3; 8]%Z - 1)%Z ->
       restore Z.ltb (replace_by_last [1; 5; 3; 8]%Z (Z.to_nat 1)) (Z.to_nat 1) d').
Proof.
  apply (Remove_spec Z.ltb every [1; 5; 3; 8]%Z 1%Z).
  - apply Zltb_weak.
  - apply small_slice. simpl. lia.
  - apply every_all.
  - by apply heap_ordered_b_sound.
  - unfold len. simpl. lia.
Defined.

(** ** C6: the two kinds of failure *)

Lemma outcome_fails_iff {T A} (r : outcome A * Heap T) (cond : Prop) msg h l :
  (cond /\ raises r msg h) \/ (~ cond /\ returns r l) -> fails_iff r cond msg h.
Proof.
  unfold raises, returns. intros [[Hc ->] | [Hc (a & d' & ->)]]; split; simpl.
  - intros m. split; [intros [= <-]; done | intros [_ ->]; done].
  - done.
  - intros m. split; [done | intros [? _]; done].
  - done.
Qed.

(** C6: [Pop] and [Peek] raise the empty-heap error if and only if
    [Len() == 0]; [At], [Remove], [Set] and [Fix] raise the
    index-out-of-range error if and only if [i < 0] or [i >= Len()]; and
    whenever an operation raises an error, the heap is exactly as it was
    before the call. *)
Theorem errors_exactly {T} `{Zero T} (l : T -> T -> bool) (d : list T) (i : Z) (x : T) :
  slice_ok d ->
  let h := mkHeap d l in
  fst (Len h) = Ret (len d) /\
  fails_iff (Pop h) (len d = 0%Z) "heap: Pop called on empty heap" h /\
  fails_iff (Peek h) (len d = 0%Z) "heap: Peek called on empty heap" h /\
  fails_iff (At i h) (i < 0 \/ len d <= i)%Z "heap: At index out of range" h /\
  fails_iff (Remove i h) (i < 0 \/ len d <= i)%Z "heap: Remove index out of range" h /\
  fails_iff (Set_ i x h) (i < 0 \/ len d <= i)%Z "heap: Set index out of range" h /\
  fails_iff (Fix i h) (i < 0 \/ len d <= i)%Z "heap: Fix index out of range" h /\
  (forall m, fst (Push x h) = Panic m -> snd (Push x h) = h).
Proof.
  intros Hd h. subst h. split; [done |].
  split; [apply (outcome_fails_iff _ _ _ _ l), Pop_outcome; done |].
  split; [apply (outcome_fails_iff _ _ _ _ l), Peek_outcome |].
  split; [apply (outcome_fails_iff _ _ _ _ l), At_outcome |].
  split; [apply (outcome_fails_iff _ _ _ _ l), Remove_outcome; done |].
  split; [apply (outcome_fails_iff _ _ _ _ l), Set_outcome; done |].
  split; [apply (outcome_fails_iff _ _ _ _ l), Fix_outcome; done |].
  apply (outcome_fails_iff (Push x (mkHeap d l)) (len d = GoInt.max_int) rt_grow _ l).
  by apply Push_outcome.
Qed.

Lemma errors_exactly_witness :
  let h := mkHeap [1; 2; 3]%Z Z.ltb in
  fst (Len h) = Ret (len [1; 2; 3]%Z) /\
  fails_iff (Pop h) (len [1; 2; 3]%Z = 0%Z) "heap: Pop called on empty heap" h /\
  fails_iff (Peek h) (len [1; 2; 3]%Z = 0%Z) "heap: Peek called on empty heap" h /\
  fails_iff (At 3 h) (3 < 0 \/ len [1; 2; 3]%Z <= 3)%Z "heap: At index out of range" h /\
  fails_iff (Remove 3 h) (3 < 0 \/ len [1; 2; 3]%Z <= 3)%Z
    "heap: Remove index out of range" h /\
  fails_iff (Set_ 3 5%Z h) (3 < 0 \/ len [1; 2; 3]%Z <= 3)%Z
    "heap: Set index out of range" h /\
  fails_iff (Fix 3 h) (3 < 0 \/ len [1; 2; 3]%Z <= 3)%Z "heap: Fix index out of range" h /\
  (forall m, fst (Push 5%Z h) = Panic m -> snd (Push 5%Z h) = h).
Proof.
  apply (errors_exactly Z.ltb [1; 2; 3]%Z 3%Z 5%Z).
  apply small_slice. simpl. lia.
Defined.

(** ** C7: [Set] against [Remove] followed by [Push] *)

Lemma prio_less_weak : strict_weak_on prio_less (fun _ => True).
Proof.
  split; unfold prio_less.
  - intros a b _ _ Hab. apply Z.ltb_lt in Hab. apply Z.ltb_ge. lia.
  - intros a b c _ _ _ Hab Hbc. apply Z.ltb_ge in Hab, Hbc. apply Z.ltb_ge. lia.
Qed.

(** C7, as stated: on the heap (1,0), (2,1), (2,2), ordered by the first
    component, [Set 0 (2,9)] and [Remove 0] followed by [Push (2,9)] leave
    different arrangements, which also pop in different orders. *)
Lemma Set_arrangement_differs :
  let h := mkHeap [(1, 0); (2, 1); (2, 2)]%Z prio_less in
  let by_set := mkHeap [(2, 9); (2, 1); (2, 2)]%Z prio_less in
  let by_push := mkHeap [(2, 2); (2, 1); (2, 9)]%Z prio_less in
  strict_weak_on prio_less (fun _ => True) /\
  heap_ordered prio_less (data h) /\
  Set_ 0 (2, 9)%Z h = (Ret tt, by_set) /\
  Remove 0 h = (Ret (1, 0)%Z, mkHeap [(2, 2); (2, 1)]%Z prio_less) /\
  Push (2, 9)%Z (mkHeap [(2, 2); (2, 1)]%Z prio_less) = (Ret tt, by_push) /\
  data by_set <> data by_push /\
  fst (pop_all by_set) = Ret [(2, 9); (2, 2); (2, 1)]%Z /\
  fst (pop_all by_push) = Ret [(2, 2); (2, 9); (2, 1)]%Z.
Proof.
  cbv zeta. split; [apply prio_less_weak |].
  split; [by apply heap_ordered_b_sound |].
  by repeat split.
Qed.

(** C7 (amended): when [less] is a strict weak order on the stored
    elements and on [x], [Set i x] on a heap-ordered heap, for every valid
    [i], leaves the same contents (as a multiset) as [Remove i] followed by
    [Push x], and both results are heap ordered; when moreover no two
    distinct elements are incomparable, both results pop the same sequence
    of values. The arrangement in the backing sequence may differ. *)
Theorem Set_as_Remove_Push {T} `{Zero T} (l : T -> T -> bool) (P : T -> Prop)
    (d : list T) (i : Z) (x : T) :
  strict_weak_on l P -> slice_ok d -> Forall P d -> P x -> heap_ordered l d ->
  (0 <= i < len d)%Z ->
  exists d1 r d2 d3,
    Set_ i x (mkHeap d l) = (Ret tt, mkHeap d1 l) /\
    Remove i (mkHeap d l) = (Ret r, mkHeap d2 l) /\
    Push x (mkHeap d2 l) = (Ret tt, mkHeap d3 l) /\
    d1 ≡ₚ d3 /\
    heap_ordered l d1 /\ heap_ordered l d3 /\
    ((forall a b, P a -> P b -> l a b = false -> l b a = false -> a = b) ->
     exists ys,
       pop_all (mkHeap d1 l) = (Ret ys, New l) /\
       pop_all (mkHeap d3 l) = (Ret ys, New l)).
Proof.
  intros Hswo Hd HP Hx Hord Hi. unfold len in Hi.
  destruct (lookup_lt_is_Some_2 d (Z.to_nat i)) as [r Hr]; [lia |].
  destruct (Set_restores l P Hswo d (Z.to_nat i) x r Hd HP Hord Hx Hr)
    as (d1 & Hset & Hp1 & Hlen1 & HP1 & Hord1).
  destruct (Remove_restores l P Hswo d (Z.to_nat i) r Hd HP Hord Hr)
    as (d2 & Hrem & Hp2 & Hlen2 & Hord2).
  assert (Forall P d2) as HP2.
  { rewrite <- Hp2 in HP. by apply Forall_cons in HP as [_ ?]. }
  apply lookup_lt_Some in Hr as Hlt.
  destruct (Push_contents d2 l x) as (d3 & Hpush & Hs & Hp3 & Hlen3).
  { unfold slice_ok, len in *. lia. }
  { unfold slice_ok, len in *. lia. }
  rewrite Z2Nat.id in Hset, Hrem by lia.
  assert (d1 ≡ₚ d3) as Hp13.
  { apply (Permutation_cons_inv (a := r)).
    rewrite Hp1, Hp3, <- Hp2. apply perm_swap. }
  assert (heap_ordered l d3) as Hord3 by (by apply (Push_ordered l P Hswo d2 d3 x)).
  exists d1, r, d2, d3. repeat split; try done.
  intros Htotal.
  destruct (pop_all_sorted l P Hswo d1) as (ys1 & Hpop1 & Hys1 & Hsorted1);
    [unfold slice_ok, len in *; lia | done | done |].
  destruct (pop_all_sorted l P Hswo d3) as (ys3 & Hpop3 & Hys3 & Hsorted3);
    [unfold slice_ok, len in *; lia | by rewrite <- Hp13 | done |].
  assert (ys1 = ys3) as <-; [| by exists ys1].
  apply (StronglySorted_unique_strong (pop_le l)); try done.
  - intros a b Ha Hb Hab Hba. unfold pop_le in *.
    apply Htotal; try done.
    + rewrite Hys1 in Ha. by eapply Forall_forall in Ha.
    + rewrite Hys3, <- Hp13 in Hb. by eapply Forall_forall in Hb.
  - by rewrite Hys1, Hys3.
Qed.

Lemma Set_as_Remove_Push_witness :
  exists d1 r d2 d3,
    Set_ 0 5%Z (mkHeap [1; 2; 3]%Z Z.ltb) = (Ret tt, mkHeap d1 Z.ltb) /\
    Remove 0 (mkHeap [1; 2; 3]%Z Z.ltb) = (Ret r, mkHeap d2 Z.ltb) /\
    Push 5%Z (mkHeap d2 Z.ltb) = (Ret tt, mkHeap d3 Z.ltb) /\
    d1 ≡ₚ d3 /\
    heap_ordered Z.ltb d1 /\ heap_ordered Z.ltb d3 /\
    ((forall a b, every a -> every b ->
        Z.ltb a b = false -> Z.ltb b a = false -> a = b) ->
     exists ys,
       pop_all (mkHeap d1 Z.ltb) = (Ret ys, New Z.ltb) /\
       pop_all (mkHeap d3 Z.ltb) = (Ret ys, New Z.ltb)).
Proof.
  apply (Set_as_Remove_Push Z.ltb every [1; 2; 3]%Z 0%Z 5%Z).
  - apply Zltb_weak.
  - apply small_slice. simpl. lia.
  - apply every_all.
  - exact I.
  - by apply heap_ordered_b_sound.
  - unfold len. simpl. lia.
Defined.

(** ** C8: [Fix] twice *)

(** C8, as stated: on the sequence 5, 3, 9, 1 with integer [<], [Fix 0]
    leaves 3, 1, 9, 5 and a second [Fix 0] swaps again, leaving 1, 3, 9, 5. *)
Lemma Fix_twice_arbitrary_state :
  strict_weak_on Z.ltb every /\
  Fix 0 (mkHeap [5; 3; 9; 1]%Z Z.ltb) = (Ret tt, mkHeap [3; 1; 9; 5]%Z Z.ltb) /\
  Fix 0 (mkHeap [3; 1; 9; 5]%Z Z.ltb) = (Ret tt, mkHeap [1; 3; 9; 5]%Z Z.ltb) /\
  [1; 3; 9; 5]%Z <> [3; 1; 9; 5]%Z.
Proof. split; [apply Zltb_weak |]. by repeat split. Qed.

(** C8 (amended): for every heap state that is heap ordered except for the
    comparisons with the element at a valid index [i], and every strict weak
    order [less], the first [Fix i] restores the invariant and a second
    [Fix i] performs no swap: contents and arrangement are those after the
    first call. *)
Theorem Fix_twice {T} `{Zero T} (l : T -> T -> bool) (P : T -> Prop)
    (d : list T) (i : Z) :
  strict_weak_on l P -> slice_ok d -> Forall P d ->
  fix_damaged l d (Z.to_nat i) -> (0 <= i < len d)%Z ->
  exists d',
    Fix i (mkHeap d l) = (Ret tt, mkHeap d' l) /\
    heap_ordered l d' /\
    Fix i (mkHeap d' l) = (Ret tt, mkHeap d' l).
Proof.
  intros Hswo Hd HP Hdam Hi. unfold len in Hi.
  destruct (Fix_run d l (Z.to_nat i) Hd) as (d' & Hrun & Hr); [lia |].
  pose proof (Fix_ordered l P Hswo d d' _ HP Hdam Hr) as Hord.
  pose proof (restore_length _ _ _ _ Hr) as Hlen.
  destruct (Fix_run d' l (Z.to_nat i)) as (d2 & Hrun2 & Hr2).
  { unfold slice_ok, len in *. lia. }
  { lia. }
  rewrite (restore_ordered l d' _ d2 Hord Hr2) in Hrun2.
  rewrite Z2Nat.id in Hrun, Hrun2 by lia.
  by exists d'.
Qed.

Lemma Fix_twice_witness :
  exists d',
    Fix 0 (mkHeap [9; 2; 3]%Z Z.ltb) = (Ret tt, mkHeap d' Z.ltb) /\
    heap_ordered Z.ltb d' /\
    Fix 0 (mkHeap d' Z.ltb) = (Ret tt, mkHeap d' Z.ltb).
Proof.
  apply (Fix_twice Z.ltb every [9; 2; 3]%Z 0%Z).
  - apply Zltb_weak.
  - apply small_slice. simpl. lia.
  - apply every_all.
  - apply (insert_fix_damaged Z.ltb every Zltb_weak [1; 2; 3]%Z 0 9%Z).
    + apply every_all.
    + by apply heap_ordered_b_sound.
  - unfold len. simpl. lia.
Defined.

(** ** C9: [Peek] *)

(** C9, as stated, at a strict partial order: the sequence is heap ordered,
    [Peek] returns the root [3], and [1], stored at index 4, is below it. *)
Lemma Peek_partial_order :
  strict_order_on po_less every /\
  heap_ordered po_less [3; 2; 2; 2; 1]%Z /\
  Peek (mkHeap [3; 2; 2; 2; 1]%Z po_less)
    = (Ret 3%Z, mkHeap [3; 2; 2; 2; 1]%Z po_less) /\
  [3; 2; 2; 2; 1]%Z !! 4 = Some 1%Z /\ po_less 1 3 = true.
Proof.
  split; [apply po_less_strict |].
  split; [by apply heap_ordered_b_sound |]. by repeat split.
Qed.

(** C9 (amended): when [less] is a strict weak order on the stored
    elements, [Peek] on a non-empty heap-ordered heap returns the element at
    index 0, no stored element is below it, and the heap state, sequence and
    length, is exactly as before. *)
Theorem Peek_spec {T} `{Zero T} (l : T -> T -> bool) (P : T -> Prop) (d : list T) :
  strict_weak_on l P -> Forall P d -> heap_ordered l d -> (0 < len d)%Z ->
  exists r,
    d !! 0 = Some r /\
    Peek (mkHeap d l) = (Ret r, mkHeap d l) /\
    (forall y, y ∈ d -> l y r = false).
Proof.
  intros Hswo HP Hord Hlen. unfold len in Hlen.
  destruct (lookup_lt_is_Some_2 d 0) as [r Hr]; [lia |].
  exists r. repeat split; [done | by apply Peek_run |].
  intros y Hy. by apply (heap_ordered_root l P Hswo d HP Hord r y).
Qed.

Lemma Peek_spec_witness :
  exists r,
    [1; 5; 3]%Z !! 0 = Some r /\
    Peek (mkHeap [1; 5; 3]%Z Z.ltb) = (Ret r, mkHeap [1; 5; 3]%Z Z.ltb) /\
    (forall y, y ∈ [1; 5; 3]%Z -> Z.ltb y r = false).
Proof.
  apply (Peek_spec Z.ltb every [1; 5; 3]%Z).
  - apply Zltb_weak.
  - apply every_all.
  - by apply heap_ordered_b_sound.
  - reflexivity.
Defined.

(** ** C10: termination *)

(** C10: for every heap state, every start index and every comparison
    function, with no order axiom assumed, the loops of [down] and [up] end
    within any budget beyond the length of the sequence, and with the same
    result for every such budget: a continuing iteration of [down] moves to
    a child, a strictly larger index within the sequence, and one of [up] to
    the parent, a strictly smaller index. Hence no public operation runs
    forever, on any input. *)
Theorem operations_terminate {T} `{Zero T} (l : T -> T -> bool) (d elems : list T)
    (i : Z) (x : T) :
  slice_ok d -> slice_ok elems ->
  let h := mkHeap d l in
  (forall budget, length d < budget ->
     fst (down_loop budget (len d) i h) <> Diverge /\
     down_loop budget (len d) i h = down_loop (S (length d)) (len d) i h /\
     fst (up_loop budget i h) <> Diverge /\
     up_loop budget i h = up_loop (S (length d)) i h) /\
  (forall (k j : nat) vj, pick l d k j vj -> k < j < length d) /\
  (forall p c : nat, child p c -> p < c) /\
  fst (down i h) <> Diverge /\ fst (up i h) <> Diverge /\
  fst (NewFrom l elems) <> Diverge /\
  fst (Len h) <> Diverge /\ fst (Push x h) <> Diverge /\
  fst (Pop h) <> Diverge /\ fst (Peek h) <> Diverge /\
  fst (At i h) <> Diverge /\ fst (Remove i h) <> Diverge /\
  fst (Set_ i x h) <> Diverge /\ fst (Fix i h) <> Diverge.
Proof.
  intros Hd He h. subst h.
  assert (forall A (r : outcome A * Heap T) cond msg,
            (cond /\ raises r msg (mkHeap d l)) \/ (~ cond /\ returns r l) ->
            fst r <> Diverge) as Hout.
  { unfold raises, returns. by intros A r cond msg [[_ ->] | [_ (a & d' & ->)]]. }
  split.
  { intros budget Hb.
    split; [by apply down_loop_total |].
    split; [apply down_loop_enough; [apply down_loop_total; [done | lia] | lia] |].
    split; [by apply up_loop_total |].
    apply up_loop_enough; [apply up_loop_total; [done | lia] | lia]. }
  split.
  { intros k j vj Hp. apply pick_child in Hp as [Hc Hj].
    apply lookup_lt_Some in Hj. unfold child in Hc. lia. }
  split; [unfold child; lia |].
  split; [by apply down_total |]. split; [by apply up_total |].
  split.
  { destruct (NewFrom_run l elems He) as (d' & k & -> & _). done. }
  split; [done |].
  split; [eapply Hout, Push_outcome; done |].
  split; [eapply Hout, Pop_outcome; done |].
  split; [eapply Hout, Peek_outcome |].
  split; [eapply Hout, At_outcome |].
  split; [eapply Hout, Remove_outcome; done |].
  split; [eapply Hout, Set_outcome; done |].
  eapply Hout, Fix_outcome; done.
Qed.

Lemma operations_terminate_witness :
  let h := mkHeap [4; 1; 3]%Z Z.leb in
  let i := (-7)%Z in
  (forall budget, length [4; 1; 3]%Z < budget ->
     fst (down_loop budget (len [4; 1; 3]%Z) i h) <> Diverge /\
     down_loop budget (len [4; 1; 3]%Z) i h
       = down_loop (S (length [4; 1; 3]%Z)) (len [4; 1; 3]%Z) i h /\
     fst (up_loop budget i h) <> Diverge /\
     up_loop budget i h = up_loop (S (length [4; 1; 3]%Z)) i h) /\
  (forall (k j : nat) vj, pick Z.leb [4; 1; 3]%Z k j vj -> k < j < length [4; 1; 3]%Z) /\
  (forall p c : nat, child p c -> p < c) /\
  fst (down i h) <> Diverge /\ fst (up i h) <> Diverge /\
  fst (NewFrom Z.leb [2; 2]%Z) <> Diverge /\
  fst (Len h) <> Diverge /\ fst (Push 0%Z h) <> Diverge /\
  fst (Pop h) <> Diverge /\ fst (Peek h) <> Diverge /\
  fst (At i h) <> Diverge /\ fst (Remove i h) <> Diverge /\
  fst (Set_ i 0%Z h) <> Diverge /\ fst (Fix i h) <> Diverge.
Proof.
  apply (operations_terminate Z.leb [4; 1; 3]%Z [2; 2]%Z (-7)%Z 0%Z).
  - apply small_slice. simpl. lia.
  - apply small_slice. simpl. lia.
Defined.

(** * Further properties of the code *)

(** ** Contents and length, whatever the comparison function *)

(** X1: [Push] on a heap whose length is below the largest [int] returns,
    adds exactly one occurrence of the pushed value to the contents,
    whatever [less] does, and raises [Len] by exactly 1. *)
Theorem Push_adds {T} `{Zero T} (l : T -> T -> bool) (d : list T) (x : T) :
  slice_ok d -> (len d < GoInt.max_int)%Z ->
  exists d',
    Push x (mkHeap d l) = (Ret tt, mkHeap d' l) /\
    d' ≡ₚ x :: d /\
    fst (Len (mkHeap d' l)) = Ret (len d + 1)%Z.
Proof.
  intros Hd Hlt.
  destruct (Push_contents d l x Hd Hlt) as (d' & Hrun & _ & Hperm & Hlen).
  exists d'. repeat split; try done.
  unfold Len, get_len, len; cbn [fst data]. f_equal. lia.
Qed.

Lemma Push_adds_witness :
  exists d',
    Push 2%Z (mkHeap [3; 5]%Z Z.leb) = (Ret tt, mkHeap d' Z.leb) /\
    d' ≡ₚ 2%Z :: [3; 5]%Z /\
    fst (Len (mkHeap d' Z.leb)) = Ret (len [3; 5]%Z + 1)%Z.
Proof.
  apply (Push_adds Z.leb [3; 5]%Z 2%Z).
  - apply small_slice. simpl. lia.
  - unfold len, GoInt.max_int. simpl. lia.
Defined.

(** X2: [Remove] at any valid index returns the element stored there and
    takes exactly that occurrence out of the contents, whatever [less] does
    and whether or not the sequence is heap ordered; [Len] drops by exactly
    1, and at index 0 the call is [Pop]. *)
Theorem Remove_removes {T} `{Zero T} (l : T -> T -> bool) (d : list T) (i : Z) :
  slice_ok d -> (0 <= i < len d)%Z ->
  exists x d',
    d !! Z.to_nat i = Some x /\
    Remove i (mkHeap d l) = (Ret x, mkHeap d' l) /\
    x :: d' ≡ₚ d /\
    (len d' = len d - 1)%Z /\
    (i = 0%Z -> Pop (mkHeap d l) = (Ret x, mkHeap d' l)).
Proof.
  intros Hd Hi. unfold len in *.
  destruct (lookup_lt_is_Some_2 d (Z.to_nat i)) as [x Hx]; [lia |].
  destruct (Remove_contents d l (Z.to_nat i) x Hd Hx)
    as (d' & Hrun & Hperm & Hlen & Hroot & _).
  rewrite Z2Nat.id in Hrun, Hroot by lia.
  exists x, d'. repeat split; try done; [lia |].
  intros ->. by rewrite <- Hroot.
Qed.

Lemma Remove_removes_witness :
  exists x d',
    [4; 1; 3; 1]%Z !! Z.to_nat 2 = Some x /\
    Remove 2 (mkHeap [4; 1; 3; 1]%Z Z.leb) = (Ret x, mkHeap d' Z.leb) /\
    x :: d' ≡ₚ [4; 1; 3; 1]%Z /\
    (len d' = len [4; 1; 3; 1]%Z - 1)%Z /\
    (2%Z = 0%Z ->
       Pop (mkHeap [4; 1; 3; 1]%Z Z.leb) = (Ret x, mkHeap d' Z.leb)).
Proof.
  apply (Remove_removes Z.leb [4; 1; 3; 1]%Z 2%Z).
  - apply small_slice. simpl. lia.
  - unfold len. simpl. lia.
Defined.

(** X3: [Set] at any valid index replaces exactly one occurrence of the
    element stored there by the new value and keeps the length, and [Fix]
    only permutes the contents, whatever [less] does and whether or not the
    sequence is heap ordered. *)
Theorem Set_replaces {T} `{Zero T} (l : T -> T -> bool) (d : list T) (i : Z) (x : T) :
  slice_ok d -> (0 <= i < len d)%Z ->
  exists old d1 d2,
    d !! Z.to_nat i = Some old /\
    Set_ i x (mkHeap d l) = (Ret tt, mkHeap d1 l) /\
    old :: d1 ≡ₚ x :: d /\ length d1 = length d /\
    Fix i (mkHeap d l) = (Ret tt, mkHeap d2 l) /\
    d2 ≡ₚ d /\ length d2 = length d.
Proof.
  intros Hd Hi. unfold len in *.
  destruct (lookup_lt_is_Some_2 d (Z.to_nat i)) as [old Hold]; [lia |].
  destruct (Set_contents d l (Z.to_nat i) x old Hd Hold)
    as (d1 & Hset & _ & Hperm & Hlen).
  destruct (Fix_run d l (Z.to_nat i) Hd) as (d2 & Hfix & Hr); [lia |].
  rewrite Z2Nat.id in Hset, Hfix by lia.
  exists old, d1, d2. repeat split; try done.
  - by eapply restore_perm.
  - by eapply restore_length.
Qed.

Lemma Set_replaces_witness :
  exists old d1 d2,
    [4; 1; 3; 1]%Z !! Z.to_nat 1 = Some old /\
    Set_ 1 9%Z (mkHeap [4; 1; 3; 1]%Z Z.leb) = (Ret tt, mkHeap d1 Z.leb) /\
    old :: d1 ≡ₚ 9%Z :: [4; 1; 3; 1]%Z /\ length d1 = length [4; 1; 3; 1]%Z /\
    Fix 1 (mkHeap [4; 1; 3; 1]%Z Z.leb) = (Ret tt, mkHeap d2 Z.leb) /\
    d2 ≡ₚ [4; 1; 3; 1]%Z /\ length d2 = length [4; 1; 3; 1]%Z.
Proof.
  apply (Set_replaces Z.leb [4; 1; 3; 1]%Z 1%Z 9%Z).
  - apply small_slice. simpl. lia.
  - unfold len. simpl. lia.
Defined.

(** X4: on a heap-ordered sequence [Fix] at any valid index changes
    nothing, and so does [Set] with the value that [At] returns for that
    index; no order axiom on [less] is needed. *)
Theorem Fix_settled {T} `{Zero T} (l : T -> T -> bool) (d : list T) (i : Z) :
  slice_ok d -> heap_ordered l d -> (0 <= i < len d)%Z ->
  Fix i (mkHeap d l) = (Ret tt, mkHeap d l) /\
  exists x,
    At i (mkHeap d l) = (Ret x, mkHeap d l) /\
    Set_ i x (mkHeap d l) = (Ret tt, mkHeap d l).
Proof.
  intros Hd Hord Hi. unfold len in *.
  destruct (lookup_lt_is_Some_2 d (Z.to_nat i)) as [x Hx]; [lia |].
  assert (Fix i (mkHeap d l) = (Ret tt, mkHeap d l)) as Hfix.
  { destruct (Fix_run d l (Z.to_nat i) Hd) as (d' & Hrun & Hr); [lia |].
    rewrite Z2Nat.id in Hrun by lia.
    by rewrite (restore_ordered l d _ d' Hord Hr) in Hrun. }
  split; [done |]. exists x. split.
  - rewrite <- (Z2Nat.id i) by lia. by apply At_run.
  - destruct (Set_run d l (Z.to_nat i) x Hd) as (d' & Hrun & Hr); [lia |].
    rewrite Z2Nat.id in Hrun by lia.
    rewrite (list_insert_id d _ x Hx) in Hr.
    by rewrite (restore_ordered l d _ d' Hord Hr) in Hrun.
Qed.

Lemma Fix_settled_witness :
  Fix 1 (mkHeap [1; 5; 3]%Z Z.ltb) = (Ret tt, mkHeap [1; 5; 3]%Z Z.ltb) /\
  exists x,
    At 1 (mkHeap [1; 5; 3]%Z Z.ltb) = (Ret x, mkHeap [1; 5; 3]%Z Z.ltb) /\
    Set_ 1 x (mkHeap [1; 5; 3]%Z Z.ltb) = (Ret tt, mkHeap [1; 5; 3]%Z Z.ltb).
Proof.
  apply (Fix_settled Z.ltb [1; 5; 3]%Z 1%Z).
  - apply small_slice. simpl. lia.
  - by apply heap_ordered_b_sound.
  - unfold len. simpl. lia.
Defined.

(** ** The sift loops seen from their callers *)




(** X6: at an index that has no child in the sequence, [down] returns
    [false] and touches nothing; this includes every index whose left child
    index [2i+1] no longer fits an [int], which the guard [left < 0] stops
    before any element is read. *)
Theorem down_without_child {T} `{Zero T} (l : T -> T -> bool) (d : list T) (i : Z) :
  slice_ok d -> (0 <= i <= GoInt.max_int)%Z -> (len d <= 2 * i + 1)%Z ->
  down i (mkHeap d l) = (Ret false, mkHeap d l).
Proof.
  intros Hd Hi Hleaf. unfold len in *.
  destruct (down_run d l (Z.to_nat i) Hd) as (d' & i' & Hrun & Hs); [lia |].
  rewrite Z2Nat.id in Hrun by lia.
  assert (d' = d /\ i' = Z.to_nat i) as [-> ->].
  { inversion Hs as [| d0 i0 j vi vj Hp | d0 i0 j vi vj d0' i0' Hp]; subst; try done.
    all: apply pick_child in Hp as [Hc Hj]; apply lookup_lt_Some in Hj;
      unfold child in Hc; lia. }
  rewrite Hrun. destruct (Z.gtb_spec (Z.of_nat (Z.to_nat i)) i); (done || lia).
Qed.

Lemma down_without_child_witness :
  down 4611686018427387904 (mkHeap [5; 2; 3]%Z Z.ltb)
    = (Ret false, mkHeap [5; 2; 3]%Z Z.ltb).
Proof.
  apply (down_without_child Z.ltb [5; 2; 3]%Z 4611686018427387904%Z).
  - apply small_slice. simpl. lia.
  - unfold GoInt.max_int. lia.
  - unfold len. simpl. lia.
Defined.

(** ** Building and draining *)

Lemma heapify_ordered {T} (l : T -> T -> bool) d k d' :
  heap_ordered l d -> heapify l d k d' -> d' = d.
Proof.
  intros Hord Hh. induction Hh as [| d k d1 i' d' Hs _ IH]; [done |].
  apply (sift_down_ordered l _ _ _ _ Hord) in Hs as [-> _]. by apply IH.
Qed.

(** X7: [NewFrom] on a sequence that is already heap ordered, the empty and
    the one-element sequence among them, returns a heap with exactly that
    sequence, in the same arrangement; no order axiom on [less] is needed. *)
Theorem NewFrom_of_heap {T} `{Zero T} (l : T -> T -> bool) (elems : list T) :
  slice_ok elems -> heap_ordered l elems ->
  NewFrom l elems = (Ret tt, mkHeap elems l).
Proof.
  intros Hd Hord.
  destruct (NewFrom_run l elems Hd) as (d' & k & Hrun & _ & Hh).
  by rewrite (heapify_ordered l elems k d' Hord Hh) in Hrun.
Qed.

Lemma NewFrom_of_heap_witness :
  NewFrom Z.ltb [1; 5; 3; 8]%Z = (Ret tt, mkHeap [1; 5; 3; 8]%Z Z.ltb).
Proof.
  apply (NewFrom_of_heap Z.ltb [1; 5; 3; 8]%Z).
  - apply small_slice. simpl. lia.
  - by apply heap_ordered_b_sound.
Defined.

(** X8: heap sort. When [less] is a strict weak order on the elements,
    [NewFrom] followed by [Pop] until the heap is empty delivers every given
    element exactly once, in non-decreasing order. *)
Theorem NewFrom_pop_sorted {T} `{Zero T} (l : T -> T -> bool) (P : T -> Prop)
    (elems : list T) :
  strict_weak_on l P -> Forall P elems -> slice_ok elems ->
  exists d ys,
    NewFrom l elems = (Ret tt, mkHeap d l) /\
    pop_all (mkHeap d l) = (Ret ys, New l) /\
    ys ≡ₚ elems /\
    StronglySorted (pop_le l) ys.
Proof.
  intros Hswo HP Hd.
  destruct (NewFrom_run l elems Hd) as (d & k & Hrun & _).
  destruct (NewFrom_valid l P Hswo elems _ Hd HP Hrun) as [Hv Hperm].
  destruct Hv as (_ & Hd' & HP' & Hord). cbn [data] in *.
  destruct (pop_all_sorted l P Hswo d Hd' HP' Hord) as (ys & Hpop & Hys & Hsorted).
  exists d, ys. repeat split; try done. by rewrite Hys.
Qed.

Lemma NewFrom_pop_sorted_witness :
  exists d ys,
    NewFrom Z.ltb [5; 2; 3; 2]%Z = (Ret tt, mkHeap d Z.ltb) /\
    pop_all (mkHeap d Z.ltb) = (Ret ys, New Z.ltb) /\
    ys ≡ₚ [5; 2; 3; 2]%Z /\
    StronglySorted (pop_le Z.ltb) ys.
Proof.
  apply (NewFrom_pop_sorted Z.ltb every [5; 2; 3; 2]%Z).
  - apply Zltb_weak.
  - apply every_all.
  - apply small_slice. simpl. lia.
Defined.

(** X9: the order of insertion does not matter. When [less] is a strict
    weak order under which no two distinct elements are incomparable, a heap
    filled by [Push] calls and a heap built by [NewFrom] from the same
    elements, given in any order, pop the same sequence of values. *)
Theorem pop_order_of_contents {T} `{Zero T} (l : T -> T -> bool) (P : T -> Prop)
    (xs elems : list T) :
  strict_weak_on l P ->
  (forall a b, P a -> P b -> l a b = false -> l b a = false -> a = b) ->
  Forall P xs -> slice_ok xs -> xs ≡ₚ elems ->
  exists d1 d2 ys,
    push_all xs (New l) = (Ret tt, mkHeap d1 l) /\
    NewFrom l elems = (Ret tt, mkHeap d2 l) /\
    pop_all (mkHeap d1 l) = (Ret ys, New l) /\
    pop_all (mkHeap d2 l) = (Ret ys, New l).
Proof.
  intros Hswo Htotal HP Hd Hperm.
  assert (slice_ok elems) as Hd2.
  { unfold slice_ok, len in *. by rewrite <- Hperm. }
  assert (Forall P elems) as HP2 by (by rewrite <- Hperm).
  destruct (push_all_ordered l P Hswo xs []) as (d1 & Hpush & Hp1 & Hord1);
    [unfold slice_ok, len in *; simpl; lia | done | done | done |].
  destruct (pop_all_sorted l P Hswo d1) as (ys1 & Hpop1 & Hys1 & Hsorted1).
  { unfold slice_ok, len in *. rewrite Hp1. simpl. lia. }
  { by rewrite Hp1. }
  { done. }
  destruct (NewFrom_run l elems Hd2) as (d2 & k & Hrun & _).
  destruct (NewFrom_valid l P Hswo elems _ Hd2 HP2 Hrun) as [(_ & Hd' & HP' & Hord2) Hp2].
  cbn [data] in *.
  destruct (pop_all_sorted l P Hswo d2 Hd' HP' Hord2) as (ys2 & Hpop2 & Hys2 & Hsorted2).
  assert (ys1 = ys2) as <-; [| by exists d1, d2, ys1].
  apply (StronglySorted_unique_strong (pop_le l)); try done.
  - intros a b Ha Hb Hab Hba. unfold pop_le in *.
    apply Htotal; try done.
    + rewrite Hys1, Hp1 in Ha. simpl in Ha. by eapply Forall_forall in Ha.
    + rewrite Hys2, Hp2 in Hb. by eapply Forall_forall in Hb.
  - by rewrite Hys1, Hys2, Hp1, Hp2.
Qed.

Lemma pop_order_of_contents_witness :
  exists d1 d2 ys,
    push_all [4; 1; 3]%Z (New Z.ltb) = (Ret tt, mkHeap d1 Z.ltb) /\
    NewFrom Z.ltb [3; 4; 1]%Z = (Ret tt, mkHeap d2 Z.ltb) /\
    pop_all (mkHeap d1 Z.ltb) = (Ret ys, New Z.ltb) /\
    pop_all (mkHeap d2 Z.ltb) = (Ret ys, New Z.ltb).
Proof.
  apply (pop_order_of_contents Z.ltb every [4; 1; 3]%Z [3; 4; 1]%Z).
  - apply Zltb_weak.
  - intros a b _ _ Hab Hba. apply Z.ltb_ge in Hab, Hba. lia.
  - apply every_all.
  - apply small_slice. simpl. lia.
  - symmetry. apply (Permutation_cons_append [4; 1]%Z 3%Z).
Defined.

Lemma Push_in_place {T} `{Zero T} (l : T -> T -> bool) (d : list T) (x : T) :
  slice_ok d -> (len d < GoInt.max_int)%Z -> (forall y, y ∈ d -> l x y = false) ->
  Push x (mkHeap d l) = (Ret tt, mkHeap (d ++ [x]) l).
Proof.
  intros Hd Hlt Hx.
  destruct (Push_run d l x Hd Hlt) as (d' & Hrun & Hs).
  assert (d' = d ++ [x]) as ->; [| done].
  inversion Hs as [| | d0 i p vi vp d0' Hc Hi Hp Hl]; subst; try done.
  rewrite lookup_app_r in Hi by lia.
  replace (length d - length d) with 0 in Hi by lia. simplify_eq /=.
  rewrite lookup_app_l in Hp by (unfold child in Hc; lia).
  rewrite Hx in Hl; [done |]. by eapply list_elem_of_lookup_2.
Qed.

Lemma push_all_in_place {T} `{Zero T} (l : T -> T -> bool) (xs d : list T) :
  (len d + len xs <= GoInt.max_int)%Z -> StronglySorted (pop_le l) (d ++ xs) ->
  push_all xs (mkHeap d l) = (Ret tt, mkHeap (d ++ xs) l).
Proof.
  revert d. induction xs as [| x xs IH]; intros d Hlen Hs.
  { by rewrite app_nil_r. }
  unfold len in *. simpl in Hlen. cbn [push_all]. unfold bind.
  rewrite Push_in_place.
  - rewrite IH; [by rewrite <- app_assoc | |].
    + unfold len. rewrite length_app. simpl. lia.
    + by rewrite <- app_assoc.
  - unfold slice_ok, len. lia.
  - unfold len. lia.
  - intros y Hy. apply StronglySorted_app in Hs as (Hs & _ & _).
    apply (Hs y x); [done | by left].
Qed.

(** X10: a sequence in non-decreasing order is heap ordered, and pushing it
    in that order onto an empty heap stores it as it is: no [Push] moves an
    element. This holds for any [less], a constant [false] included. *)
Theorem push_sorted_in_place {T} `{Zero T} (l : T -> T -> bool) (xs : list T) :
  slice_ok xs -> StronglySorted (pop_le l) xs ->
  push_all xs (New l) = (Ret tt, mkHeap xs l) /\ heap_ordered l xs.
Proof.
  intros Hd Hs. split.
  - apply (push_all_in_place l xs []); [| done].
    unfold slice_ok, len in *. simpl. lia.
  - intros i c x y Hc Hi Hy.
    apply lookup_lt_Some in Hy as Hlen.
    rewrite <- (take_drop c xs) in Hs, Hi. rewrite lookup_app_l in Hi.
    2:{ rewrite length_take. unfold child in Hc. lia. }
    apply StronglySorted_app in Hs as (Hs & _ & _).
    apply (Hs x y).
    + by eapply list_elem_of_lookup_2.
    + apply (list_elem_of_lookup_2 _ 0). by rewrite lookup_drop, Nat.add_0_r.
Qed.

Lemma push_sorted_in_place_witness :
  push_all [1; 2; 2; 7]%Z (New Z.ltb) = (Ret tt, mkHeap [1; 2; 2; 7]%Z Z.ltb) /\
  heap_ordered Z.ltb [1; 2; 2; 7]%Z.
Proof.
  apply (push_sorted_in_place Z.ltb [1; 2; 2; 7]%Z).
  - apply small_slice. simpl. lia.
  - repeat constructor.
Defined.

Lemma sift_up_root {T} (l : T -> T -> bool) d i d' r x :
  sift_up l d i d' -> 0 < i -> d !! 0 = Some r -> d !! i = Some x ->
  d' !! 0 = Some r \/ (d' !! 0 = Some x /\ l x r = true).
Proof.
  intros Hs. revert r x.
  induction Hs as [| | d i p vi vp d' Hc Hi Hp Hlt Hs IH]; intros r x Hpos Hr Hx;
    [lia | by left |].
  rewrite Hi in Hx. injection Hx as ->.
  assert (i <> p) as Hip by (unfold child in Hc; lia).
  destruct (decide (p = 0)) as [-> | Hne].
  - rewrite Hr in Hp. injection Hp as <-. right. split; [| done].
    inversion Hs as [| ? ? q ? ? Hq | ? ? q ? ? ? Hq]; subst.
    + rewrite (exchange_lookup d i 0 x r 0) by done. by case_decide.
    + unfold child in Hq. lia.
    + unfold child in Hq. lia.
  - apply IH; [lia | |].
    + rewrite (exchange_lookup d i p x vp 0) by done.
      repeat case_decide; (done || lia).
    + rewrite (exchange_lookup d i p x vp p) by done. by case_decide.
Qed.

(** X11: [Push] moves the minimum only for a smaller value. When [less] is
    a strict weak order on the elements, pushing [x] onto a non-empty
    heap-ordered heap with root [r] leaves [x] at the root when [x] is less
    than [r], and [r] otherwise; [Peek] then returns that element. *)
Theorem Push_then_Peek {T} `{Zero T} (l : T -> T -> bool) (P : T -> Prop)
    (d : list T) (r x : T) :
  strict_weak_on l P -> slice_ok d -> (len d < GoInt.max_int)%Z ->
  Forall P d -> P x -> heap_ordered l d -> d !! 0 = Some r ->
  exists d',
    Push x (mkHeap d l) = (Ret tt, mkHeap d' l) /\
    Peek (mkHeap d' l) = (Ret (if l x r then x else r), mkHeap d' l).
Proof.
  intros Hswo Hd Hlt HP Hx Hord Hr.
  destruct (Push_contents d l x Hd Hlt) as (d' & Hrun & Hs & Hperm & Hlen).
  exists d'. split; [done |]. apply Peek_run.
  apply lookup_lt_Some in Hr as Hpos.
  destruct (sift_up_root l _ _ _ r x Hs) as [Hroot | [Hroot Hless]]; try lia.
  - by rewrite lookup_app_l.
  - rewrite lookup_app_r by lia. by replace (length d - length d) with 0 by lia.
  - destruct (l x r) eqn:Hxr; [| done]. exfalso.
    assert (Forall P d') as HP' by (rewrite Hperm; by constructor).
    assert (heap_ordered l d') as Hord' by (by eapply (Push_ordered l P Hswo d d' x)).
    rewrite (heap_ordered_root l P Hswo d' HP' Hord' r x Hroot) in Hxr; [done |].
    rewrite Hperm. by left.
  - by rewrite Hless.
Qed.

Lemma Push_then_Peek_witness :
  exists d',
    Push 2%Z (mkHeap [4; 6; 5]%Z Z.ltb) = (Ret tt, mkHeap d' Z.ltb) /\
    Peek (mkHeap d' Z.ltb)
      = (Ret (if Z.ltb 2 4 then 2%Z else 4%Z), mkHeap d' Z.ltb).
Proof.
  apply (Push_then_Peek Z.ltb every [4; 6; 5]%Z 4%Z 2%Z).
  - apply Zltb_weak.
  - apply small_slice. simpl. lia.
  - unfold len, GoInt.max_int. simpl. lia.
  - apply every_all.
  - exact I.
  - by apply heap_ordered_b_sound.
  - reflexivity.
Defined.

Lemma pop_loop_all {T} `{Zero T} (l : T -> T -> bool) budget (d : list T) :
  slice_ok d -> length d < budget ->
  exists ys, pop_loop budget (mkHeap d l) = (Ret ys, mkHeap [] l) /\ ys ≡ₚ d.
Proof.
  revert d. induction budget as [| budget IH]; intros d Hd Hb; [lia |].
  cbn [pop_loop]. unfold bind at 1. rewrite Len_run.
  destruct (decide (length d = 0)) as [Hz | Hnz].
  { assert (d = []) as -> by (by destruct d). by exists []. }
  destruct (lookup_lt_is_Some_2 d 0) as [r Hr]; [lia |].
  destruct (Z.gtb_spec (len d) 0) as [_ | Hle]; [| unfold len in Hle; lia].
  destruct (Pop_contents d l r Hd Hr) as (d' & i' & Hrun & _ & Hperm & Hlen).
  unfold bind at 1. rewrite Hrun.
  destruct (IH d') as (ys & Hloop & Hys); [unfold slice_ok, len in *; lia | lia |].
  unfold bind. rewrite Hloop. exists (r :: ys). split; [done |].
  by rewrite Hys.
Qed.

(** X12: popping until the heap is empty returns every stored element
    exactly once and leaves the empty heap, whatever [less] does and whether
    or not the sequence is heap ordered; on the heap it leaves, [Pop] and
    [Peek] panic. *)
Theorem pop_all_returns_all {T} `{Zero T} (l : T -> T -> bool) (d : list T) :
  slice_ok d ->
  exists ys,
    pop_all (mkHeap d l) = (Ret ys, New l) /\
    ys ≡ₚ d /\
    fst (Pop (snd (pop_all (mkHeap d l)))) = Panic "heap: Pop called on empty heap" /\
    fst (Peek (snd (pop_all (mkHeap d l)))) = Panic "heap: Peek called on empty heap".
Proof.
  intros Hd.
  destruct (pop_loop_all l (S (length d)) d Hd) as (ys & Hrun & Hperm); [lia |].
  exists ys. unfold pop_all; cbn [data]. rewrite Hrun. by repeat split.
Qed.

Lemma pop_all_returns_all_witness :
  exists ys,
    pop_all (mkHeap [3; 1; 2]%Z Z.leb) = (Ret ys, New Z.leb) /\
    ys ≡ₚ [3; 1; 2]%Z /\
    fst (Pop (snd (pop_all (mkHeap [3; 1; 2]%Z Z.leb))))
      = Panic "heap: Pop called on empty heap" /\
    fst (Peek (snd (pop_all (mkHeap [3; 1; 2]%Z Z.leb))))
      = Panic "heap: Peek called on empty heap".
Proof.
  apply (pop_all_returns_all Z.leb [3; 1; 2]%Z).
  apply small_slice. simpl. lia.
Defined.

(** ** The helper and the loops of the tests *)

Lemma below_cases i p : below i p -> p = i \/ below (2 * i + 1) p \/ below (2 * i + 2) p.
Proof.
  induction 1 as [| p c Hb IH Hc]; [by left |]. right.
  destruct IH as [-> | [IH | IH]].
  - destruct Hc as [-> | ->]; [left | right]; constructor.
  - left. by econstructor.
  - right. by econstructor.
Qed.

Lemma below_under i j p : child i j -> below j p -> below i p.
Proof.
  intros Hc. induction 1 as [| p c Hb IH Hpc].
  - by apply (below_child i i j); [constructor |].
  - by econstructor.
Qed.

Lemma below_ge i p : below i p -> i <= p.
Proof. induction 1 as [| p c Hb IH Hc]; [done | unfold child in Hc; lia]. Qed.

Lemma below_0 p : below 0 p.
Proof.
  induction (Wf_nat.lt_wf p) as [p _ IH].
  destruct (decide (p = 0)) as [-> | Hne]; [constructor |].
  destruct (has_parent p) as [q Hq]; [lia |].
  apply (below_child 0 q p); [| done]. apply IH. unfold child in Hq. lia.
Qed.

Lemma subtree_ordered_0 {T} (l : T -> T -> bool) d :
  subtree_ordered l 0 d <-> heap_ordered l d.
Proof.
  split.
  - intros Hs i c x y. apply Hs, below_0.
  - intros Ho p c x y _. apply Ho.
Qed.

Lemma subtree_ordered_split {T} (l : T -> T -> bool) i d :
  subtree_ordered l i d <->
  (forall c x y, child i c -> d !! i = Some x -> d !! c = Some y -> l y x = false) /\
  subtree_ordered l (2 * i + 1) d /\ subtree_ordered l (2 * i + 2) d.
Proof.
  split.
  - intros Hs. split; [| split].
    + intros c x y. apply Hs. constructor.
    + intros p c x y Hb. apply Hs. apply (below_under i (2 * i + 1)); [by left | done].
    + intros p c x y Hb. apply Hs. apply (below_under i (2 * i + 2)); [by right | done].
  - intros (Hi & H1 & H2) p c x y Hb.
    destruct (below_cases i p Hb) as [-> | [Hb' | Hb']].
    + apply Hi.
    + by apply H1.
    + by apply H2.
Qed.

Lemma subtree_ordered_outside {T} (l : T -> T -> bool) i d :
  length d <= i -> subtree_ordered l i d.
Proof.
  intros Hi p c x y Hb _ Hx. apply below_ge in Hb. apply lookup_lt_Some in Hx. lia.
Qed.

Lemma child_index_int (i : nat) :
  (2 * Z.of_nat i + 2 <= GoInt.max_int)%Z ->
  GoInt.add (GoInt.mul 2 (Z.of_nat i)) 1 = Z.of_nat (2 * i + 1) /\
  GoInt.add (GoInt.mul 2 (Z.of_nat i)) 2 = Z.of_nat (2 * i + 2).
Proof. intros Hi. split; wrap_lia. Qed.

Lemma verifyIntHeap_rec_run budget (d : list Z) l0 lessf (i : nat) log :
  (2 * len d + 2 <= GoInt.max_int)%Z -> i <= length d -> length d - i < budget ->
  exists errs,
    verifyIntHeap_rec budget (Z.of_nat i) lessf log (mkHeap d l0)
      = (Ret (log ++ errs), mkHeap d l0) /\
    (errs = [] <-> subtree_ordered lessf i d).
Proof.
  revert i log. induction budget as [| budget IH]; intros i log Hd Hi Hb; [lia |].
  unfold len in Hd. cbn [verifyIntHeap_rec].
  unfold bind at 1. rewrite Len_run. unfold len.
  destruct (child_index_int i) as [-> ->]; [lia |].
  destruct (Z.ltb_spec (Z.of_nat (2 * i + 1)) (Z.of_nat (length d))) as [H1 | H1].
  2:{ (* no child within the sequence *)
      unfold bind at 1, ret at 1.
      destruct (Z.ltb_spec (Z.of_nat (2 * i + 2)) (Z.of_nat (length d))); [lia |].
      exists []. rewrite app_nil_r. split; [done |]. split; [| done]. intros _.
      apply subtree_ordered_split. split; [| split].
      - intros c x y Hc _ Hy. apply lookup_lt_Some in Hy. unfold child in Hc. lia.
      - apply subtree_ordered_outside. lia.
      - apply subtree_ordered_outside. lia. }
  destruct (lookup_lt_is_Some_2 d i) as [vi Hvi]; [lia |].
  destruct (lookup_lt_is_Some_2 d (2 * i + 1)) as [v1 Hv1]; [lia |].
  unfold bind at 1. unfold bind at 1.
  rewrite (At_run d l0 _ v1 Hv1). unfold bind at 1. rewrite (At_run d l0 _ vi Hvi).
  destruct (lessf v1 vi) eqn:Hl1.
  { (* the left child is below: report and return *)
    unfold bind at 1. rewrite (At_run d l0 _ vi Hvi).
    unfold bind at 1. rewrite (At_run d l0 _ v1 Hv1). unfold ret at 1 2.
    eexists [_]. split; [done |]. split; [done |]. intros Hs.
    assert (lessf v1 vi = false) as Hf
      by (apply (Hs i (2 * i + 1)); [constructor | by left | done | done]).
    congruence. }
  destruct (IH (2 * i + 1) log) as (e1 & Hrun1 & Hiff1); [unfold len; lia | lia | lia |].
  unfold bind at 1. rewrite Hrun1. unfold ret at 1.
  destruct (Z.ltb_spec (Z.of_nat (2 * i + 2)) (Z.of_nat (length d))) as [H2 | H2].
  2:{ exists e1. split; [done |]. rewrite Hiff1. split.
      - intros Hs1. apply subtree_ordered_split. split; [| split]; try done.
        + intros c x y [-> | ->] Hx Hy; [by simplify_eq |].
          apply lookup_lt_Some in Hy. lia.
        + apply subtree_ordered_outside. lia.
      - intros Hs. by apply subtree_ordered_split in Hs as (_ & ? & _). }
  destruct (lookup_lt_is_Some_2 d (2 * i + 2)) as [v2 Hv2]; [lia |].
  unfold bind at 1. rewrite (At_run d l0 _ v2 Hv2).
  unfold bind at 1. rewrite (At_run d l0 _ vi Hvi).
  destruct (lessf v2 vi) eqn:Hl2.
  { unfold bind at 1. rewrite (At_run d l0 _ vi Hvi).
    unfold bind at 1. rewrite (At_run d l0 _ v2 Hv2). unfold ret at 1.
    eexists (e1 ++ [_]). rewrite app_assoc. split; [done |]. split.
    - intros He. by apply app_eq_nil in He as [_ ?].
    - intros Hs.
      assert (lessf v2 vi = false) as Hf
        by (apply (Hs i (2 * i + 2)); [constructor | by right | done | done]).
      congruence. }
  destruct (IH (2 * i + 2) (log ++ e1)) as (e2 & Hrun2 & Hiff2);
    [unfold len; lia | lia | lia |].
  rewrite Hrun2. exists (e1 ++ e2). rewrite app_assoc. split; [done |]. split.
  - intros He. apply app_eq_nil in He as [He1 He2].
    apply subtree_ordered_split. split; [| split].
    + intros c x y [-> | ->] Hx Hy; by simplify_eq.
    + by apply Hiff1.
    + by apply Hiff2.
  - intros Hs. apply subtree_ordered_split in Hs as (_ & Hs1 & Hs2).
    apply Hiff1 in Hs1. apply Hiff2 in Hs2. by subst.
Qed.

(** X13: the test helper [verifyIntHeap], called at index 0 on a heap whose
    doubled length fits an [int], returns without a panic, leaves the heap
    as it is, and reports an error to the test if and only if some child
    within the sequence is less than its parent. *)
Theorem verifyIntHeap_exact (d : list Z) (l0 lessf : Z -> Z -> bool) (log : list report) :
  (2 * len d + 2 <= GoInt.max_int)%Z ->
  exists errs,
    verifyIntHeap 0 lessf log (mkHeap d l0) = (Ret (log ++ errs), mkHeap d l0) /\
    (errs = [] <-> heap_ordered lessf d).
Proof.
  intros Hd. unfold verifyIntHeap; cbn [data].
  destruct (verifyIntHeap_rec_run (S (length d)) d l0 lessf 0 log Hd)
    as (errs & Hrun & Hiff); [lia | lia |].
  exists errs. split; [done |]. by rewrite Hiff, subtree_ordered_0.
Qed.

Lemma verifyIntHeap_exact_witness :
  exists errs,
    verifyIntHeap 0 Z.ltb [] (mkHeap [1; 2; 0; 4]%Z Z.ltb)
      = (Ret ([] ++ errs), mkHeap [1; 2; 0; 4]%Z Z.ltb) /\
    (errs = [] <-> heap_ordered Z.ltb [1; 2; 0; 4]%Z).
Proof.
  apply (verifyIntHeap_exact [1; 2; 0; 4]%Z Z.ltb Z.ltb []).
  unfold len, GoInt.max_int. simpl. lia.
Defined.

(** X14: when the right child of the root is less than the root and the
    left child is not, [verifyIntHeap] first checks the left subtree and then
    reports the violation with the root's index and value, the value of the
    right child, and the index of the left child: the message prints [j1]
    where the offending index is [j2]. *)
Theorem verifyIntHeap_right_report (d : list Z) (l0 lessf : Z -> Z -> bool)
    (log : list report) (x y1 y2 : Z) :
  (2 * len d + 2 <= GoInt.max_int)%Z ->
  d !! 0 = Some x -> d !! 1 = Some y1 -> d !! 2 = Some y2 ->
  lessf y1 x = false -> lessf y2 x = true ->
  exists errs,
    verifyIntHeap 0 lessf log (mkHeap d l0)
      = (Ret (log ++ errs ++ [(0, x, 1, y2)%Z]), mkHeap d l0) /\
    (errs = [] <-> subtree_ordered lessf 1 d).
Proof.
  intros Hd Hx Hy1 Hy2 Hl1 Hl2. apply lookup_lt_Some in Hy2 as Hlen.
  unfold verifyIntHeap; cbn [data]. cbn [verifyIntHeap_rec].
  unfold bind at 1. rewrite Len_run. unfold len in *.
  change 0%Z with (Z.of_nat 0).
  destruct (child_index_int 0) as [-> ->]; [lia |].
  change (2 * 0 + 1) with 1. change (2 * 0 + 2) with 2.
  destruct (Z.ltb_spec (Z.of_nat 1) (Z.of_nat (length d))); [| lia].
  destruct (Z.ltb_spec (Z.of_nat 2) (Z.of_nat (length d))); [| lia].
  unfold bind at 1. unfold bind at 1.
  rewrite (At_run d l0 _ y1 Hy1). unfold bind at 1. rewrite (At_run d l0 _ x Hx).
  rewrite Hl1.
  destruct (verifyIntHeap_rec_run (length d) d l0 lessf 1 log)
    as (errs & Hrun & Hiff); [unfold len; lia | lia | lia |].
  unfold bind at 1. rewrite Hrun. unfold ret at 1.
  unfold bind at 1. rewrite (At_run d l0 _ y2 Hy2).
  unfold bind at 1. rewrite (At_run d l0 _ x Hx). rewrite Hl2.
  unfold bind at 1. rewrite (At_run d l0 _ x Hx).
  unfold bind at 1. rewrite (At_run d l0 _ y2 Hy2). unfold ret.
  exists errs. by rewrite <- app_assoc.
Qed.

Lemma verifyIntHeap_right_report_witness :
  exists errs,
    verifyIntHeap 0 Z.ltb [] (mkHeap [5; 7; 2; 9]%Z Z.ltb)
      = (Ret ([] ++ errs ++ [(0, 5, 1, 2)%Z]), mkHeap [5; 7; 2; 9]%Z Z.ltb) /\
    (errs = [] <-> subtree_ordered Z.ltb 1 [5; 7; 2; 9]%Z).
Proof.
  apply (verifyIntHeap_right_report [5; 7; 2; 9]%Z Z.ltb Z.ltb [] 5%Z 7%Z 2%Z).
  - unfold len, GoInt.max_int. simpl. lia.
  - reflexivity.
  - reflexivity.
  - reflexivity.
  - reflexivity.
  - reflexivity.
Defined.

Lemma mid_index_int (n : nat) :
  0 < n -> (Z.of_nat n <= GoInt.max_int)%Z ->
  exists k : nat, GoInt.quo (GoInt.sub (Z.of_nat n) 1) 2 = Z.of_nat k /\ k < n.
Proof.
  intros Hn Hmax. exists (Z.to_nat (GoInt.quo (GoInt.sub (Z.of_nat n) 1) 2)).
  assert (0 <= GoInt.quo (GoInt.sub (Z.of_nat n) 1) 2 < Z.of_nat n)%Z by wrap_lia.
  lia.
Qed.

Lemma remove_mid_loop_run budget (d : list Z) (l : Z -> Z -> bool) m log :
  (2 * len d + 2 <= GoInt.max_int)%Z -> length d < budget ->
  exists m' log',
    remove_mid_loop budget l m log (mkHeap d l) = (Ret (m', log'), mkHeap [] l) /\
    (forall k, m' !! k = if decide (k ∈ d) then Some true else m !! k) /\
    (forall P, strict_weak_on l P -> Forall P d -> heap_ordered l d -> log' = log).
Proof.
  revert d m log. induction budget as [| budget IH]; intros d m log Hd Hb; [lia |].
  cbn [remove_mid_loop]. unfold bind at 1. rewrite Len_run.
  destruct (decide (length d = 0)) as [Hz | Hnz].
  { assert (d = []) as -> by (by destruct d). exists m, log.
    split; [done |]. split; [| done]. intros k. case_decide as Hk; [| done].
    by apply elem_of_nil in Hk. }
  unfold len in *.
  destruct (Z.gtb_spec (Z.of_nat (length d)) 0) as [_ | Hle]; [| lia].
  unfold bind at 1. rewrite Len_run. unfold len.
  destruct (mid_index_int (length d)) as (k & -> & Hk); [lia | lia |].
  destruct (lookup_lt_is_Some_2 d k) as [x Hx]; [done |].
  assert (slice_ok d) as Hok by (unfold slice_ok, len; lia).
  destruct (Remove_contents d l k x Hok Hx) as (d' & Hrun & Hperm & Hlen & _).
  unfold bind at 1. rewrite Hrun.
  destruct (verifyIntHeap_exact d' l l log) as (errs & Hver & Hiff); [unfold len; lia |].
  unfold bind at 1. rewrite Hver.
  destruct (IH d' (<[x := true]> m) (log ++ errs)) as (m' & log' & Hloop & Hm & Hlog);
    [unfold len; lia | lia |].
  exists m', log'. split; [done |]. split.
  - intros j. rewrite Hm.
    assert (j ∈ d <-> j = x \/ j ∈ d') as Hin.
    { rewrite <- Hperm. apply elem_of_cons. }
    destruct (decide (j ∈ d')) as [Hj' | Hj'], (decide (j ∈ d)) as [Hj | Hj]; try done.
    + exfalso. apply Hj, Hin. by right.
    + apply Hin in Hj as [-> | ?]; [by rewrite lookup_insert_eq | done].
    + rewrite lookup_insert_ne; [done |]. intros ->. apply Hj, Hin. by left.
  - intros P Hswo HP Hord.
    destruct (Remove_restores l P Hswo d k x Hok HP Hord Hx) as (d1 & Hrun1 & _ & _ & Hord1).
    rewrite Hrun in Hrun1. injection Hrun1 as <-.
    assert (errs = []) as -> by (by apply Hiff).
    rewrite app_nil_r in Hlog. apply (Hlog P); try done.
    rewrite <- Hperm in HP. by apply Forall_cons in HP as [_ ?].
Qed.

(** X15: the loop of [TestRemove2], which removes the element at index
    [(Len()-1)/2] until the heap is empty, ends with the empty heap and has
    then marked in its map exactly the values that were stored, whatever
    [less] does; when [less] is a strict weak order and the heap was heap
    ordered, no call of [verifyIntHeap] in the loop reports an error. *)
Theorem remove_mid_marks_all (d : list Z) (l : Z -> Z -> bool) (m : gmap Z bool)
    (log : list report) :
  (2 * len d + 2 <= GoInt.max_int)%Z ->
  exists m' log',
    remove_mid_all l m log (mkHeap d l) = (Ret (m', log'), New l) /\
    (forall k, m' !! k = if decide (k ∈ d) then Some true else m !! k) /\
    (forall P, strict_weak_on l P -> Forall P d -> heap_ordered l d -> log' = log).
Proof.
  intros Hd. unfold remove_mid_all; cbn [data].
  apply remove_mid_loop_run; [done | lia].
Qed.

Lemma remove_mid_marks_all_witness :
  exists m' log',
    remove_mid_all Z.ltb ∅ [] (mkHeap [0; 1; 2; 3]%Z Z.ltb) = (Ret (m', log'), New Z.ltb) /\
    (forall k, m' !! k
       = if decide (k ∈ [0; 1; 2; 3]%Z) then Some true else (∅ : gmap Z bool) !! k) /\
    (forall P, strict_weak_on Z.ltb P -> Forall P [0; 1; 2; 3]%Z ->
       heap_ordered Z.ltb [0; 1; 2; 3]%Z -> log' = []).
Proof.
  apply (remove_mid_marks_all [0; 1; 2; 3]%Z Z.ltb ∅ []).
  unfold len, GoInt.max_int. simpl. lia.
Defined.

Lemma bind_Ret {T A B} (m : @M T A) (k : A -> @M T B) h a h' :
  m h = (Ret a, h') -> bind m k h = k a h'.
Proof. intros Hm. unfold bind. by rewrite Hm. Qed.

Lemma peek_pop_loop_run {T} `{Zero T} (prio : T -> Z) (l : T -> T -> bool)
    budget (d : list T) peeks pops :
  slice_ok d -> length d < budget ->
  exists ys,
    pop_loop budget (mkHeap d l) = (Ret ys, mkHeap [] l) /\
    peek_pop_loop prio budget peeks pops (mkHeap d l)
      = (Ret (peeks ++ map prio ys, pops ++ map prio ys), mkHeap [] l).
Proof.
  revert d peeks pops. induction budget as [| budget IH]; intros d peeks pops Hd Hb; [lia |].
  cbn [pop_loop peek_pop_loop]. rewrite !(bind_Ret _ _ _ _ _ (Len_run d l)).
  destruct (decide (length d = 0)) as [Hz | Hnz].
  { assert (d = []) as -> by (by destruct d). exists []. by rewrite !app_nil_r. }
  destruct (lookup_lt_is_Some_2 d 0) as [r Hr]; [lia |].
  destruct (Z.gtb_spec (len d) 0) as [_ | Hle]; [| unfold len in Hle; lia].
  destruct (Pop_contents d l r Hd Hr) as (d' & i' & Hrun & _ & _ & Hlen).
  rewrite (bind_Ret _ _ _ _ _ (Peek_run d l r Hr)).
  rewrite !(bind_Ret _ _ _ _ _ Hrun).
  destruct (IH d' (peeks ++ [prio r]) (pops ++ [prio r])) as (ys & Hpop & Hloop);
    [unfold slice_ok, len in *; lia | lia |].
  exists (r :: ys). rewrite (bind_Ret _ _ _ _ _ Hpop), Hloop. simpl.
  by rewrite <- !app_assoc.
Qed.

(** X16: in the loop of [TestPop], which peeks and then pops until the heap
    is empty, [Peek] always announces the element that [Pop] then returns:
    both lists of priorities are those of the elements in the order [Pop]
    delivers them, whatever [less] does. When [less] compares by priority
    and the heap is heap ordered, both lists are sorted. *)
Theorem peek_pop_agree {T} `{Zero T} (prio : T -> Z) (l : T -> T -> bool) (d : list T) :
  slice_ok d ->
  exists ys,
    pop_all (mkHeap d l) = (Ret ys, New l) /\
    peek_pop_all prio (mkHeap d l) = (Ret (map prio ys, map prio ys), New l) /\
    ((forall a b, l a b = (prio a <? prio b)%Z) -> heap_ordered l d ->
     StronglySorted Z.le (map prio ys)).
Proof.
  intros Hd. unfold pop_all, peek_pop_all; cbn [data].
  destruct (peek_pop_loop_run prio l (S (length d)) d [] [] Hd) as (ys & Hpop & Hloop);
    [lia |].
  exists ys. split; [done |]. split; [done |]. intros Hl Hord.
  assert (strict_weak_on l (fun _ => True)) as Hswo.
  { split.
    - intros a b _ _. rewrite !Hl. intros Hab.
      apply Z.ltb_lt in Hab. apply Z.ltb_ge. lia.
    - intros a b c _ _ _. rewrite !Hl. intros Hab Hbc.
      apply Z.ltb_ge in Hab, Hbc. apply Z.ltb_ge. lia. }
  destruct (pop_loop_sorted l _ Hswo (S (length d)) d Hd) as (ys' & Hpop' & _ & Hs);
    [by apply Forall_forall | done | lia |].
  rewrite Hpop in Hpop'. injection Hpop' as <-.
  clear Hpop Hloop. induction Hs as [| a ys Hs IH Ha]; [constructor |].
  simpl. constructor; [done |].
  apply Forall_forall. intros k Hk. apply list_elem_of_fmap in Hk as (b & -> & Hb).
  eapply Forall_forall in Ha; [| done]. unfold pop_le in Ha.
  rewrite Hl in Ha. apply Z.ltb_ge in Ha. lia.
Qed.

Lemma peek_pop_agree_witness :
  exists ys,
    pop_all (mkHeap [(0, 4); (3, 2); (4, 1)]%Z prio_less) = (Ret ys, New prio_less) /\
    peek_pop_all fst (mkHeap [(0, 4); (3, 2); (4, 1)]%Z prio_less)
      = (Ret (map fst ys, map fst ys), New prio_less) /\
    ((forall a b, prio_less a b = (fst a <? fst b)%Z) ->
     heap_ordered prio_less [(0, 4); (3, 2); (4, 1)]%Z ->
     StronglySorted Z.le (map fst ys)).
Proof.
  apply (peek_pop_agree fst prio_less [(0, 4); (3, 2); (4, 1)]%Z).
  apply small_slice. simpl. lia.
Defined.
